(** * fleetTrack backend: trip logging models, serializers and views

    A shallow embedding of [track/models.py], [track/serializers.py] and
    [track/views.py].  The relational store is a record of tables, each a
    list of rows; every ORM call becomes a computation in a state-and-
    exception monad over that store.  Python floats are idealised as
    rationals ([Q]); timestamps and dates are integers.  A [string] is a
    sequence of characters, one [ascii] each, so the text covered is the
    text over the first 256 code points.  The columns [created_at] and
    [updated_at] are not part of the rows: nothing in the three modules
    reads them except the tie-break of [Trip.Meta.ordering], and every
    statement about a row is about the columns the records list. *)

From Stdlib Require Import List String Ascii Bool Arith ZArith QArith Lia.
From Stdlib Require Import Setoid Morphisms.
From Stdlib Require Import Sorted Permutation.
Import ListNotations.

Local Open Scope string_scope.
Local Open Scope list_scope.

(** ** models.py: rows

    Trips and trip events exist as Python instances before they are saved,
    so their primary key is optional ([None] is Python's [pk is None]); the
    other rows are only ever produced by an insert. *)

Record Location := mkLocation {
  loc_id : nat;
  loc_address : string;          (* unique *)
  loc_latitude : Q;
  loc_longitude : Q;
  loc_city : string;
  loc_state : string;
  loc_country : string;
  loc_postal_code : string
}.

Record Driver := mkDriver {
  drv_id : nat;
  drv_driver_initial : string;   (* unique *)
  drv_full_name : string;
  drv_license_number : string;   (* unique *)
  drv_phone_number : string;
  drv_email : string
}.

Record Carrier := mkCarrier {
  car_id : nat;
  car_name : string;             (* unique *)
  car_dot_number : string;       (* unique *)
  car_mc_number : string;
  car_address : string;
  car_phone : string
}.

Record Vehicle := mkVehicle {
  veh_id : nat;
  veh_truck_number : string;     (* unique *)
  veh_make : string;
  veh_model : string;
  veh_year : option nat;
  veh_vin : string;              (* unique *)
  veh_license_plate : string;
  veh_carrier : nat              (* ForeignKey(Carrier) *)
}.

Record Trip := mkTrip {
  trip_id : option nat;
  trip_date : Z;
  trip_driver : nat;             (* ForeignKey(Driver) *)
  trip_co_driver : option nat;   (* ForeignKey(Driver), null=True *)
  trip_vehicle : nat;            (* ForeignKey(Vehicle) *)
  trip_shipper_and_commodity : string;
  trip_cycle_rule : string;
  total_miles_driving : Q;
  total_mileage_today : Q;
  total_driving_hours : Q;
  total_on_duty_hours : Q;
  total_off_duty_hours : Q;
  total_sleeper_hours : Q;
  trip_remarks : string;
  trip_is_completed : bool
}.

Record TripEvent := mkTripEvent {
  ev_id : option nat;
  ev_trip : nat;                 (* ForeignKey(Trip) *)
  ev_location : nat;             (* ForeignKey(Location) *)
  ev_event_type : string;
  ev_timestamp : Z;
  ev_duration : Q;
  ev_miles_driven : Q;
  ev_notes : string
}.

(** [TripEvent.EVENT_TYPE_CHOICES], the stored values. *)
Definition EVENT_TYPE_CHOICES : list string :=
  [ "driving"; "on_duty"; "off_duty"; "sleeper"; "rest_break"; "fuel_stop";
    "meal_break"; "inspection"; "loading"; "unloading"; "other" ].

Definition CYCLE_RULE_CHOICES : list string := [ "70hr/8day"; "60hr/7day" ].

(** ** The store *)

Record Store := mkStore {
  locations : list Location;
  drivers : list Driver;
  carriers : list Carrier;
  vehicles : list Vehicle;
  trips : list Trip;
  events : list TripEvent
}.

Definition empty_store : Store := mkStore [] [] [] [] [] [].

Definition set_locations (s : Store) (l : list Location) : Store :=
  mkStore l (drivers s) (carriers s) (vehicles s) (trips s) (events s).
Definition set_drivers (s : Store) (l : list Driver) : Store :=
  mkStore (locations s) l (carriers s) (vehicles s) (trips s) (events s).
Definition set_carriers (s : Store) (l : list Carrier) : Store :=
  mkStore (locations s) (drivers s) l (vehicles s) (trips s) (events s).
Definition set_vehicles (s : Store) (l : list Vehicle) : Store :=
  mkStore (locations s) (drivers s) (carriers s) l (trips s) (events s).
Definition set_trips (s : Store) (l : list Trip) : Store :=
  mkStore (locations s) (drivers s) (carriers s) (vehicles s) l (events s).
Definition set_events (s : Store) (l : list TripEvent) : Store :=
  mkStore (locations s) (drivers s) (carriers s) (vehicles s) (trips s) l.

(** ** Exceptions and the store monad *)

Inductive Exn :=
| ValidationError      (* rest_framework.serializers.ValidationError *)
| IntegrityError       (* django.db.IntegrityError *)
| AttributeError       (* Python's AttributeError *)
| KeyError             (* dict.pop of a missing key *)
| OverflowError        (* datetime arithmetic out of range *)
| Http404.             (* get_object() on an unknown primary key *)

Definition M (A : Type) : Type := Store -> (Exn + A) * Store.

Definition ret {A} (a : A) : M A := fun s => (inr a, s).
Definition raise {A} (e : Exn) : M A := fun s => (inl e, s).
Definition bind {A B} (m : M A) (f : A -> M B) : M B :=
  fun s => match m s with
           | (inl e, s') => (inl e, s')
           | (inr a, s') => f a s'
           end.
Definition get_store : M Store := fun s => (inr s, s).

Declare Scope m_scope.
Delimit Scope m_scope with m.
Notation "x <- m ;; k" := (bind m (fun x => k))
  (at level 61, m at next level, right associativity) : m_scope.
Notation "m ;;; k" := (bind m (fun _ => k))
  (at level 61, right associativity) : m_scope.
Local Open Scope m_scope.

(** [@transaction.atomic]: an exception leaving the block restores the store
    the block was entered with and is raised again. *)
Definition atomic {A} (m : M A) : M A :=
  fun s => match m s with
           | (inl e, _) => (inl e, s)
           | (inr a, s') => (inr a, s')
           end.

(** ** Query helpers *)

(** A dictionary entry or nullable value: [None] is a missing key. *)
Definition opt_default {A} (d : A) (o : option A) : A :=
  match o with Some a => a | None => d end.

Definition opt_all {A} (p : A -> bool) (o : option A) : bool :=
  match o with Some a => p a | None => true end.

Definition opt_required {A} (p : A -> bool) (o : option A) : bool :=
  match o with Some a => p a | None => false end.

Definition is_some {A} (o : option A) : bool :=
  match o with Some _ => true | None => false end.

(** Python truthiness of a string. *)
Definition truthy (x : string) : bool := negb (x =? "").

Definition fresh_id (keys : list nat) : nat :=
  S (fold_right Nat.max 0%nat keys).

Definition get_by {A} (p : A -> bool) (rows : list A) : option A := find p rows.

(** [Model.save()] on a row that already has a key: UPDATE in place. *)
Fixpoint update_row {A} (same : A -> bool) (r : A) (rows : list A) : list A :=
  match rows with
  | [] => []
  | x :: rest => if same x then r :: rest else x :: update_row same r rest
  end.

Definition has_pk {A} (pk : A -> nat) (k : nat) (rows : list A) : bool :=
  existsb (fun r => (pk r =? k)%nat) rows.

Definition is_key (o : option nat) (k : nat) : bool :=
  match o with Some j => (j =? k)%nat | None => false end.

Definition keys_of {A} (pk : A -> option nat) (rows : list A) : list nat :=
  flat_map (fun r => match pk r with Some k => [k] | None => [] end) rows.

(** Insertion sort; [order_by] on a query set is [sort_by] with the
    column's order, and [.first()] is [hd_error]. *)
Fixpoint insert_by {A} (le : A -> A -> bool) (x : A) (l : list A) : list A :=
  match l with
  | [] => [x]
  | y :: rest => if le x y then x :: l else y :: insert_by le x rest
  end.

Fixpoint sort_by {A} (le : A -> A -> bool) (l : list A) : list A :=
  match l with
  | [] => []
  | x :: rest => insert_by le x (sort_by le rest)
  end.

(** ** models.py: Trip *)

Definition Trip_get (s : Store) (k : nat) : option Trip :=
  get_by (fun t => is_key (trip_id t) k) (trips s).

Definition Location_get (s : Store) (k : nat) : option Location :=
  get_by (fun l => (loc_id l =? k)%nat) (locations s).

(** [self.events]: the reverse relation of [TripEvent.trip]. *)
Definition Trip_events (s : Store) (t : Trip) : list TripEvent :=
  filter (fun e => is_key (trip_id t) (ev_trip e)) (events s).

(** SQL [SUM]: [NULL] (Python [None]) over zero rows. *)
Definition Sum (xs : list Q) : option Q :=
  match xs with
  | [] => None
  | x :: rest => Some (fold_left Qplus rest x)
  end.

(** [x or 0.0]: [None] and a zero sum are both falsy. *)
Definition or_zero (x : option Q) : Q :=
  match x with
  | None => 0
  | Some v => if Qeq_bool v 0 then 0 else v
  end.

Definition has_type (ty : string) (e : TripEvent) : bool :=
  ev_event_type e =? ty.

(** [Sum(col, filter=Q(event_type=ty))] over a query set. *)
Definition aggregate_Sum (col : TripEvent -> Q) (ty : string)
    (qs : list TripEvent) : option Q :=
  Sum (map col (filter (has_type ty) qs)).

(** [cycle_hours_used] *)
Definition Trip_cycle_hours_used (t : Trip) : Q :=
  total_driving_hours t + total_on_duty_hours t.

(** [Trip.save()]: foreign keys are checked by the database; a row with the
    instance's key is updated, otherwise one is inserted. *)
Definition Trip_fk_ok (s : Store) (t : Trip) : bool :=
  has_pk drv_id (trip_driver t) (drivers s)
  && has_pk veh_id (trip_vehicle t) (vehicles s)
  && match trip_co_driver t with
     | Some c => has_pk drv_id c (drivers s)
     | None => true
     end.

Definition Trip_save (t : Trip) : M Trip := fun s =>
  let stored k := existsb (fun r => is_key (trip_id r) k) (trips s) in
  if negb (Trip_fk_ok s t) then (inl IntegrityError, s)
  else if opt_required stored (trip_id t)
  then (inr t, set_trips s
                 (update_row (fun r => opt_required (is_key (trip_id r))
                                         (trip_id t)) t (trips s)))
  else
    let k := opt_default (fresh_id (keys_of trip_id (trips s))) (trip_id t) in
    let t' := mkTrip (Some k) (trip_date t) (trip_driver t) (trip_co_driver t)
                (trip_vehicle t) (trip_shipper_and_commodity t)
                (trip_cycle_rule t) (total_miles_driving t)
                (total_mileage_today t) (total_driving_hours t)
                (total_on_duty_hours t) (total_off_duty_hours t)
                (total_sleeper_hours t) (trip_remarks t)
                (trip_is_completed t) in
    (inr t', set_trips s (trips s ++ [t'])).

(** [Trip.calculate_totals] *)
Definition Trip_calculate_totals (t : Trip) : M Trip := fun s =>
  let qs := Trip_events s t in
  let driving_hours := aggregate_Sum ev_duration "driving" qs in
  let on_duty_hours := aggregate_Sum ev_duration "on_duty" qs in
  let off_duty_hours := aggregate_Sum ev_duration "off_duty" qs in
  let sleeper_hours := aggregate_Sum ev_duration "sleeper" qs in
  let total_miles :=
    Sum (map ev_miles_driven (filter (has_type "driving") qs)) in
  Trip_save
    (mkTrip (trip_id t) (trip_date t) (trip_driver t) (trip_co_driver t)
       (trip_vehicle t) (trip_shipper_and_commodity t) (trip_cycle_rule t)
       (or_zero total_miles)
       (total_mileage_today t)
       (or_zero driving_hours)
       (or_zero on_duty_hours)
       (or_zero off_duty_hours)
       (or_zero sleeper_hours)
       (trip_remarks t) (trip_is_completed t)) s.

(** [Trip.origin_location] *)
Definition Trip_origin_location (s : Store) (t : Trip) : option Location :=
  match hd_error (sort_by (fun a b => (ev_timestamp a <=? ev_timestamp b)%Z)
                    (Trip_events s t)) with
  | Some first_event => Location_get s (ev_location first_event)
  | None => None
  end.

(** [Trip.destination_location] *)
Definition driving_boundary (e : TripEvent) : bool :=
  existsb (String.eqb (ev_event_type e)) [ "driving_start"; "driving_end" ].

Definition Trip_destination_location (s : Store) (t : Trip) : option Location :=
  match hd_error (sort_by (fun a b => (ev_timestamp b <=? ev_timestamp a)%Z)
                    (filter driving_boundary (Trip_events s t))) with
  | Some last_driving_event => Location_get s (ev_location last_driving_event)
  | None => None
  end.

(** ** models.py: TripEvent *)

Definition TripEvent_fk_ok (s : Store) (e : TripEvent) : bool :=
  is_some (Trip_get s (ev_trip e))
  && has_pk loc_id (ev_location e) (locations s).

(** [super().save()] of [TripEvent.save]. *)
Definition TripEvent_super_save (e : TripEvent) : M TripEvent := fun s =>
  let stored k := existsb (fun r => is_key (ev_id r) k) (events s) in
  if negb (TripEvent_fk_ok s e) then (inl IntegrityError, s)
  else if opt_required stored (ev_id e)
  then (inr e, set_events s
                 (update_row (fun r => opt_required (is_key (ev_id r))
                                         (ev_id e)) e (events s)))
  else
    let k := opt_default (fresh_id (keys_of ev_id (events s))) (ev_id e) in
    let e' := mkTripEvent (Some k) (ev_trip e) (ev_location e) (ev_event_type e)
                (ev_timestamp e) (ev_duration e) (ev_miles_driven e)
                (ev_notes e) in
    (inr e', set_events s (events s ++ [e'])).

(** [TripEvent.save]: the parent object [self.trip] is the row the event's
    foreign key points at; its recomputed totals are written back. *)
Definition TripEvent_save (e : TripEvent) : M TripEvent :=
  e' <- TripEvent_super_save e ;;
  s <- get_store ;;
  match Trip_get s (ev_trip e') with
  | Some trip => Trip_calculate_totals trip ;;; ret e'
  | None => raise IntegrityError
  end.

(** ** ORM managers used by the serializers *)

Definition Location_by_address (s : Store) (a : string) : option Location :=
  get_by (fun l => loc_address l =? a) (locations s).

Definition Driver_by_initial (s : Store) (x : string) : option Driver :=
  get_by (fun d => drv_driver_initial d =? x) (drivers s).

Definition Carrier_by_name (s : Store) (n : string) : option Carrier :=
  get_by (fun c => car_name c =? n) (carriers s).

Definition Vehicle_by_truck_number (s : Store) (n : string) : option Vehicle :=
  get_by (fun v => veh_truck_number v =? n) (vehicles s).

(** [Carrier.objects.first()]: no ordering is declared, so by primary key. *)
Definition Carrier_objects_first (s : Store) : option Carrier :=
  hd_error (sort_by (fun a b => (car_id a <=? car_id b)%nat) (carriers s)).

(** [Driver.objects.create]: both unique columns are checked on insert. *)
Definition Driver_objects_create (initial full_name license : string)
    : M Driver := fun s =>
  if existsb (fun d => (drv_driver_initial d =? initial)
                       || (drv_license_number d =? license)) (drivers s)
  then (inl IntegrityError, s)
  else
    let d := mkDriver (fresh_id (map drv_id (drivers s))) initial full_name
               license "" "" in
    (inr d, set_drivers s (drivers s ++ [d])).

Definition Driver_objects_get_or_create (initial full_name license : string)
    : M Driver := fun s =>
  match Driver_by_initial s initial with
  | Some d => (inr d, s)
  | None => Driver_objects_create initial full_name license s
  end.

Definition Carrier_objects_create (name dot_number : string) : M Carrier :=
  fun s =>
  if existsb (fun c => (car_name c =? name)
                       || (car_dot_number c =? dot_number)) (carriers s)
  then (inl IntegrityError, s)
  else
    let c := mkCarrier (fresh_id (map car_id (carriers s))) name dot_number
               "" "" "" in
    (inr c, set_carriers s (carriers s ++ [c])).

Definition Carrier_objects_get_or_create (name dot_number : string)
    : M Carrier := fun s =>
  match Carrier_by_name s name with
  | Some c => (inr c, s)
  | None => Carrier_objects_create name dot_number s
  end.

(** A vehicle created from [defaults={"carrier": carrier}] alone gets the
    empty string in every other text column, [vin] included. *)
Definition Vehicle_objects_create (truck_number : string) (carrier : nat)
    : M Vehicle := fun s =>
  if negb (has_pk car_id carrier (carriers s))
     || existsb (fun v => (veh_truck_number v =? truck_number)
                          || (veh_vin v =? "")) (vehicles s)
  then (inl IntegrityError, s)
  else
    let v := mkVehicle (fresh_id (map veh_id (vehicles s))) truck_number
               "" "" None "" "" carrier in
    (inr v, set_vehicles s (vehicles s ++ [v])).

Definition Vehicle_objects_get_or_create (truck_number : string)
    (carrier : nat) : M Vehicle := fun s =>
  match Vehicle_by_truck_number s truck_number with
  | Some v => (inr v, s)
  | None => Vehicle_objects_create truck_number carrier s
  end.

(** ** serializers.py: LocationSerializer *)

(** The [location_data] dictionary; [None] is a missing key. *)
Record LocationData := mkLocationData {
  ld_address : option string;
  ld_latitude : option Q;
  ld_longitude : option Q;
  ld_city : option string;
  ld_state : option string;
  ld_country : option string;
  ld_postal_code : option string
}.

Definition within (lo hi : Q) (x : Q) : bool :=
  Qle_bool lo x && Qle_bool x hi.

Definition max_length (n : nat) (x : string) : bool :=
  (String.length x <=? n)%nat.

(** [str.isspace] on one character: tab to carriage return, the four
    separators, the space, NEL and the no-break space. *)
Definition is_space (c : ascii) : bool :=
  let n := nat_of_ascii c in
  ((9 <=? n) && (n <=? 13) || (28 <=? n) && (n <=? 32)
   || (n =? 133) || (n =? 160))%nat.

Fixpoint lstrip (x : string) : string :=
  match x with
  | EmptyString => EmptyString
  | String c rest => if is_space c then lstrip rest else x
  end.

Fixpoint rstrip (x : string) : string :=
  match x with
  | EmptyString => EmptyString
  | String c rest =>
      match rstrip rest with
      | EmptyString => if is_space c then EmptyString else String c EmptyString
      | kept => String c kept
      end
  end.

(** [str.strip()] *)
Definition strip (x : string) : string := rstrip (lstrip x).

Fixpoint has_null (x : string) : bool :=
  match x with
  | EmptyString => false
  | String c rest => (nat_of_ascii c =? 0)%nat || has_null rest
  end.

(** A [CharField] of rest_framework on a string: the value is trimmed
    ([trim_whitespace] is on by default); a value that is empty after
    trimming is accepted, as the empty string, only with [allow_blank];
    any other value must be free of null characters and within
    [max_length], counted after trimming.  The validated value is the
    trimmed one in every case. *)
Definition CharField_is_valid (limit : option nat) (allow_blank : bool)
    (data : string) : bool :=
  let value := strip data in
  if value =? "" then allow_blank
  else negb (has_null value) && opt_all (fun n => max_length n value) limit.

(** [LocationSerializer(data=...).is_valid()].  The fields are those a
    [ModelSerializer] derives from the declarations of [Location]:
    [address] is required, non-blank, at most 255 characters and, the column
    being declared [unique=True], carries the uniqueness validator over all
    stored rows, so its trimmed value must not be the address of a stored
    Location; [latitude] and [longitude] are required and range-checked; the
    other columns are optional with their length limits, and only [country],
    which is not declared [blank=True], refuses a blank value. *)
Definition LocationSerializer_is_valid (s : Store) (d : LocationData) : bool :=
  opt_required (fun a => CharField_is_valid (Some 255%nat) false a
                         && negb (existsb (fun l => loc_address l =? strip a)
                                    (locations s))) (ld_address d)
  && opt_required (within (-90 # 1) (90 # 1)) (ld_latitude d)
  && opt_required (within (-180 # 1) (180 # 1)) (ld_longitude d)
  && opt_all (CharField_is_valid (Some 100%nat) true) (ld_city d)
  && opt_all (CharField_is_valid (Some 50%nat) true) (ld_state d)
  && opt_all (CharField_is_valid (Some 50%nat) false) (ld_country d)
  && opt_all (CharField_is_valid (Some 20%nat) true) (ld_postal_code d).

(** [location_serializer.validated_data]: the strings trimmed. *)
Definition LocationSerializer_validated_data (d : LocationData)
    : LocationData :=
  mkLocationData (option_map strip (ld_address d)) (ld_latitude d)
    (ld_longitude d) (option_map strip (ld_city d))
    (option_map strip (ld_state d)) (option_map strip (ld_country d))
    (option_map strip (ld_postal_code d)).

Definition Location_objects_create (d : LocationData) : M Location := fun s =>
  match ld_address d, ld_latitude d, ld_longitude d with
  | Some a, Some lat, Some lng =>
      if existsb (fun l => loc_address l =? a) (locations s)
      then (inl IntegrityError, s)
      else
        let l := mkLocation (fresh_id (map loc_id (locations s))) a lat lng
                   (opt_default "" (ld_city d)) (opt_default "" (ld_state d))
                   (opt_default "USA" (ld_country d))
                   (opt_default "" (ld_postal_code d)) in
        (inr l, set_locations s (locations s ++ [l]))
  | _, _, _ => (inl IntegrityError, s)
  end.

(** [LocationSerializer.create]:
    [Location.objects.get_or_create] keyed by [address], with
    [validated_data] as defaults. *)
Definition LocationSerializer_create (validated_data : LocationData)
    : M Location := fun s =>
  match ld_address validated_data with
  | Some address =>
      match Location_by_address s address with
      | Some location => (inr location, s)
      | None => Location_objects_create validated_data s
      end
  | None => Location_objects_create validated_data s
  end.

(** ** serializers.py: TripEventCreateSerializer *)

Record EventData := mkEventData {
  ed_event_type : option string;
  ed_timestamp : option Z;
  ed_duration : option Q;
  ed_miles_driven : option Q;
  ed_notes : option string;
  ed_location_data : option LocationData
}.

Definition min_value_0 (x : Q) : bool := Qle_bool 0 x.

(** [TripEventCreateSerializer(data=...).is_valid()]: [event_type] is one of
    the declared choices, [timestamp] and [location_data] are required,
    [duration] and [miles_driven] carry [MinValueValidator(0)], [notes] is
    an optional text that may be blank.  [location_data] is a [DictField]:
    what the dictionary holds is not looked at here. *)
Definition TripEventCreateSerializer_is_valid (d : EventData) : bool :=
  opt_required (fun t => existsb (String.eqb t) EVENT_TYPE_CHOICES)
    (ed_event_type d)
  && opt_required (fun _ => true) (ed_timestamp d)
  && opt_all min_value_0 (ed_duration d)
  && opt_all min_value_0 (ed_miles_driven d)
  && opt_all (CharField_is_valid None true) (ed_notes d)
  && opt_required (fun _ => true) (ed_location_data d).

(** [serializer.validated_data] of the event serializer. *)
Definition TripEventCreateSerializer_validated_data (d : EventData)
    : EventData :=
  mkEventData (ed_event_type d) (ed_timestamp d) (ed_duration d)
    (ed_miles_driven d) (option_map strip (ed_notes d)) (ed_location_data d).

(** [TripEvent.objects.create] with [location], [trip] and the remaining
    [validated_data]; missing columns take their declared defaults. *)
Definition TripEvent_objects_create (trip location : nat) (d : EventData)
    : M TripEvent :=
  match ed_timestamp d with
  | Some ts =>
      TripEvent_save
        (mkTripEvent None trip location (opt_default "" (ed_event_type d)) ts
           (opt_default 0 (ed_duration d)) (opt_default 0 (ed_miles_driven d))
           (opt_default "" (ed_notes d)))
  | None => raise IntegrityError
  end.

(** [TripEventCreateSerializer.create], reached through
    [serializer.save(trip=trip)]. *)
Definition TripEventCreateSerializer_create (trip : nat)
    (validated_data : EventData) : M TripEvent :=
  match ed_location_data validated_data with
  | Some location_data =>
      s <- get_store ;;
      location <- (if LocationSerializer_is_valid s location_data
                   then LocationSerializer_create
                          (LocationSerializer_validated_data location_data)
                   else raise ValidationError) ;;
      TripEvent_objects_create trip (loc_id location) validated_data
  | None => raise KeyError
  end.

(** ** serializers.py: TripCreateSerializer *)

(** The dictionary [TripCreateSerializer.create] receives; [None] is a
    missing key.  [create] reads [initial_events], [driver] and [vehicle]
    with a fallback for a missing key, so the dictionary may lack them; the
    data the serializer validates for a request never does (see
    [TripCreateSerializer_is_valid] below). *)
Record TripCreateData := mkTripCreateData {
  vd_date : option Z;
  vd_driver : option nat;
  vd_co_driver : option (option nat);
  vd_vehicle : option nat;
  vd_shipper_and_commodity : option string;
  vd_cycle_rule : option string;
  vd_total_mileage_today : option Q;
  vd_remarks : option string;
  vd_initial_events : option (list EventData);
  vd_current_location : option LocationData;
  vd_pickup_location : option LocationData;
  vd_dropoff_location : option LocationData;
  vd_driver_initial : option string;
  vd_carrier_name : option string;
  vd_truck_number : option string
}.

(** [timezone.now()] in serializers.py.  The module binds the name with
    [from time import timezone], which is the integer UTC offset of the
    standard library, not [django.utils.timezone]: the attribute lookup
    [.now] on an integer raises [AttributeError]. *)
Definition timezone_now : M Z := raise AttributeError.

Definition legacy_event (field : option LocationData)
    (event_type notes : string) : M (list EventData) :=
  match field with
  | Some location_data =>
      now <- timezone_now ;;
      ret [ mkEventData (Some event_type) (Some now) None None (Some notes)
              (Some location_data) ]
  | None => ret []
  end.

Definition legacy_locations (vd : TripCreateData) : M (list EventData) :=
  l1 <- legacy_event (vd_current_location vd) "other" "Current location" ;;
  l2 <- legacy_event (vd_pickup_location vd) "loading" "Pickup location" ;;
  l3 <- legacy_event (vd_dropoff_location vd) "unloading" "Dropoff location" ;;
  ret (l1 ++ l2 ++ l3).

(** Truthiness of [validated_data.pop(key, None)]. *)
Definition truthy_opt (o : option string) : bool :=
  match o with Some x => truthy x | None => false end.

(** [if driver_initial and not validated_data.get("driver")] *)
Definition resolve_driver (vd : TripCreateData) : M (option nat) :=
  let driver_initial := opt_default "" (vd_driver_initial vd) in
  if truthy_opt (vd_driver_initial vd) && negb (is_some (vd_driver vd)) then
    driver <- Driver_objects_get_or_create driver_initial driver_initial
                ("LIC_" ++ driver_initial) ;;
    ret (Some (drv_id driver))
  else ret (vd_driver vd).

(** The Carrier of the shorthand; [carrier_name[:10]] is the first ten
    characters of the name. *)
Definition resolve_carrier (carrier_name : option string) : M Carrier :=
  if truthy_opt carrier_name then
    let name := opt_default "" carrier_name in
    Carrier_objects_get_or_create name ("DOT_" ++ substring 0 10 name)
  else
    s <- get_store ;;
    match Carrier_objects_first s with
    | Some carrier => ret carrier
    | None => Carrier_objects_create "Default Carrier" "DOT_DEFAULT"
    end.

(** [if truck_number and not validated_data.get("vehicle")] *)
Definition resolve_vehicle (vd : TripCreateData) : M (option nat) :=
  let truck_number := opt_default "" (vd_truck_number vd) in
  if truthy_opt (vd_truck_number vd) && negb (is_some (vd_vehicle vd)) then
    carrier <- resolve_carrier (vd_carrier_name vd) ;;
    vehicle <- Vehicle_objects_get_or_create truck_number (car_id carrier) ;;
    ret (Some (veh_id vehicle))
  else ret (vd_vehicle vd).

(** [Trip.objects.create] on the remaining [validated_data]: [date],
    [driver] and [vehicle]
    are NOT NULL columns; the other columns fall back to their declared
    defaults. *)
Definition Trip_objects_create (vd : TripCreateData)
    (driver vehicle : option nat) : M Trip :=
  match vd_date vd, driver, vehicle with
  | Some date, Some d, Some v =>
      Trip_save
        (mkTrip None date d (opt_default None (vd_co_driver vd)) v
           (opt_default "" (vd_shipper_and_commodity vd))
           (opt_default "70hr/8day" (vd_cycle_rule vd))
           0 (opt_default 0 (vd_total_mileage_today vd)) 0 0 0 0
           (opt_default "" (vd_remarks vd)) false)
  | _, _, _ => raise IntegrityError
  end.

(** The loop over [all_events]: an entry the event serializer does not
    accept is passed over; an accepted one is saved against the trip. *)
Fixpoint save_events (trip : nat) (all_events : list EventData) : M unit :=
  match all_events with
  | [] => ret tt
  | event_data :: rest =>
      (if TripEventCreateSerializer_is_valid event_data
       then TripEventCreateSerializer_create trip
              (TripEventCreateSerializer_validated_data event_data) ;;; ret tt
       else ret tt) ;;;
      save_events trip rest
  end.

(** The body of [TripCreateSerializer.create].  The Python [trip] object is
    written back by every [calculate_totals], so the instance returned at
    the end is the stored row. *)
Definition TripCreateSerializer_create_body (validated_data : TripCreateData)
    : M Trip :=
  let initial_events_data :=
    opt_default [] (vd_initial_events validated_data) in
  legacy <- legacy_locations validated_data ;;
  driver <- resolve_driver validated_data ;;
  vehicle <- resolve_vehicle validated_data ;;
  trip <- Trip_objects_create validated_data driver vehicle ;;
  let pk := opt_default 0%nat (trip_id trip) in
  save_events pk (initial_events_data ++ legacy) ;;;
  s <- get_store ;;
  ret (opt_default trip (Trip_get s pk)).

(** [TripCreateSerializer.create], under [@transaction.atomic]. *)
Definition TripCreateSerializer_create (validated_data : TripCreateData)
    : M Trip :=
  atomic (TripCreateSerializer_create_body validated_data).

(** ** serializers.py: the writable fields of the two Trip serializers *)

(** A request body for a Trip, with the keys a client may send. *)
Record TripRequestBody := mkTripRequestBody {
  rq_date : option Z;
  rq_driver : option nat;
  rq_co_driver : option (option nat);   (* a key may carry null *)
  rq_vehicle : option nat;
  rq_shipper_and_commodity : option string;
  rq_cycle_rule : option string;
  rq_total_miles_driving : option Q;
  rq_total_mileage_today : option Q;
  rq_total_driving_hours : option Q;
  rq_total_on_duty_hours : option Q;
  rq_total_off_duty_hours : option Q;
  rq_total_sleeper_hours : option Q;
  rq_remarks : option string;
  rq_is_completed : option bool;
  rq_initial_events : option (list EventData);
  rq_current_location : option LocationData;
  rq_pickup_location : option LocationData;
  rq_dropoff_location : option LocationData;
  rq_driver_initial : option string;
  rq_carrier_name : option string;
  rq_truck_number : option string
}.

(** [TripCreateSerializer(data=body).is_valid()], over the fields of
    [Meta.fields] and the declared ones.  [date] is required; [driver] and
    [vehicle], foreign keys that are not nullable, are required and must be
    the key of a stored row; [co_driver] may be missing or null;
    [initial_events], declared without [required=False], is required, may be
    empty, and each of its entries must pass the event serializer;
    [cycle_rule] is one of the choices; the three single-location fields
    are dictionaries taken as they come; the three shorthand fields are
    optional and not blank.  A key that is not listed is never read. *)
Definition TripCreateSerializer_is_valid (s : Store) (body : TripRequestBody)
    : bool :=
  is_some (rq_date body)
  && opt_required (fun d => has_pk drv_id d (drivers s)) (rq_driver body)
  && opt_all (opt_all (fun d => has_pk drv_id d (drivers s)))
       (rq_co_driver body)
  && opt_required (fun v => has_pk veh_id v (vehicles s)) (rq_vehicle body)
  && opt_all (CharField_is_valid (Some 255%nat) true)
       (rq_shipper_and_commodity body)
  && opt_all (fun c => existsb (String.eqb c) CYCLE_RULE_CHOICES)
       (rq_cycle_rule body)
  && opt_all (CharField_is_valid None true) (rq_remarks body)
  && opt_required (forallb TripEventCreateSerializer_is_valid)
       (rq_initial_events body)
  && opt_all (CharField_is_valid None false) (rq_driver_initial body)
  && opt_all (CharField_is_valid None false) (rq_carrier_name body)
  && opt_all (CharField_is_valid None false) (rq_truck_number body).

(** [serializer.validated_data] of [TripCreateSerializer]: the keys of the
    body that belong to a field, strings trimmed, each initial event as its
    own serializer validated it. *)
Definition TripCreateSerializer_validated_data (body : TripRequestBody)
    : TripCreateData :=
  mkTripCreateData (rq_date body) (rq_driver body) (rq_co_driver body)
    (rq_vehicle body) (option_map strip (rq_shipper_and_commodity body))
    (rq_cycle_rule body) (rq_total_mileage_today body)
    (option_map strip (rq_remarks body))
    (option_map (map TripEventCreateSerializer_validated_data)
       (rq_initial_events body))
    (rq_current_location body) (rq_pickup_location body)
    (rq_dropoff_location body) (option_map strip (rq_driver_initial body))
    (option_map strip (rq_carrier_name body))
    (option_map strip (rq_truck_number body)).

(** [validated_data] of [TripSerializer], used for updates: the model
    columns of [Meta.fields] that are neither in [Meta.read_only_fields] nor
    declared read-only. *)
Record TripUpdateData := mkTripUpdateData {
  ud_date : option Z;
  ud_driver : option nat;
  ud_co_driver : option (option nat);
  ud_vehicle : option nat;
  ud_shipper_and_commodity : option string;
  ud_cycle_rule : option string;
  ud_total_mileage_today : option Q;
  ud_remarks : option string;
  ud_is_completed : option bool
}.

Definition TripSerializer_validated_data (body : TripRequestBody)
    : TripUpdateData :=
  mkTripUpdateData (rq_date body) (rq_driver body) (rq_co_driver body)
    (rq_vehicle body) (rq_shipper_and_commodity body) (rq_cycle_rule body)
    (rq_total_mileage_today body) (rq_remarks body) (rq_is_completed body).

(** [ModelSerializer.update] for a Trip: every key of [validated_data] is
    assigned to the instance, which is then saved. *)
Definition TripSerializer_update (instance : Trip)
    (validated_data : TripUpdateData) : M Trip :=
  Trip_save
    (mkTrip (trip_id instance)
       (opt_default (trip_date instance) (ud_date validated_data))
       (opt_default (trip_driver instance) (ud_driver validated_data))
       (opt_default (trip_co_driver instance) (ud_co_driver validated_data))
       (opt_default (trip_vehicle instance) (ud_vehicle validated_data))
       (opt_default (trip_shipper_and_commodity instance)
          (ud_shipper_and_commodity validated_data))
       (opt_default (trip_cycle_rule instance) (ud_cycle_rule validated_data))
       (total_miles_driving instance)
       (opt_default (total_mileage_today instance)
          (ud_total_mileage_today validated_data))
       (total_driving_hours instance)
       (total_on_duty_hours instance)
       (total_off_duty_hours instance)
       (total_sleeper_hours instance)
       (opt_default (trip_remarks instance) (ud_remarks validated_data))
       (opt_default (trip_is_completed instance)
          (ud_is_completed validated_data))).

(** ** views.py *)

(** [self.get_object()] of [TripViewSet]. *)
Definition TripViewSet_get_object (pk : nat) : M Trip := fun s =>
  match Trip_get s pk with
  | Some t => (inr t, s)
  | None => (inl Http404, s)
  end.

(** [TripViewSet] creation, [CreateModelMixin.create] with the serializer
    chosen by [get_serializer_class]:
    [serializer.is_valid(raise_exception=True)], then [serializer.save()],
    which is [TripCreateSerializer.create] on the validated data. *)
Definition TripViewSet_create (body : TripRequestBody) : M Trip :=
  s <- get_store ;;
  if TripCreateSerializer_is_valid s body
  then TripCreateSerializer_create (TripCreateSerializer_validated_data body)
  else raise ValidationError.

(** [TripViewSet] update: the writable keys of the body are assigned to the
    stored instance, which is saved. *)

Definition TripViewSet_update (pk : nat) (body : TripRequestBody) : M Trip :=
  instance <- TripViewSet_get_object pk ;;
  TripSerializer_update instance (TripSerializer_validated_data body).

(** [TripViewSet.add_event]: the response is the created event (201) or the
    serializer's errors (400). *)
Definition TripViewSet_add_event (pk : nat) (data : EventData) : M TripEvent :=
  trip <- TripViewSet_get_object pk ;;
  if TripEventCreateSerializer_is_valid data
  then TripEventCreateSerializer_create pk
         (TripEventCreateSerializer_validated_data data)
  else raise ValidationError.

(** [TripViewSet.complete]: [trip.is_completed = True], then [trip.save()]. *)
Definition TripViewSet_complete (pk : nat) : M Trip :=
  trip <- TripViewSet_get_object pk ;;
  Trip_save
    (mkTrip (trip_id trip) (trip_date trip) (trip_driver trip)
       (trip_co_driver trip) (trip_vehicle trip)
       (trip_shipper_and_commodity trip) (trip_cycle_rule trip)
       (total_miles_driving trip) (total_mileage_today trip)
       (total_driving_hours trip) (total_on_duty_hours trip)
       (total_off_duty_hours trip) (total_sleeper_hours trip)
       (trip_remarks trip) true).

(** [validated_data] of [TripEventSerializer], the serializer of
    [TripEventViewSet] for updates: [trip] is not among its fields. *)
Record EventUpdateData := mkEventUpdateData {
  eu_event_type : option string;
  eu_timestamp : option Z;
  eu_duration : option Q;
  eu_miles_driven : option Q;
  eu_notes : option string;
  eu_location : option nat
}.

(** [ModelSerializer.update] for a TripEvent: assign, then
    [instance.save()], which is [TripEvent.save]. *)
Definition TripEventSerializer_update (instance : TripEvent)
    (validated_data : EventUpdateData) : M TripEvent :=
  TripEvent_save
    (mkTripEvent (ev_id instance) (ev_trip instance)
       (opt_default (ev_location instance) (eu_location validated_data))
       (opt_default (ev_event_type instance) (eu_event_type validated_data))
       (opt_default (ev_timestamp instance) (eu_timestamp validated_data))
       (opt_default (ev_duration instance) (eu_duration validated_data))
       (opt_default (ev_miles_driven instance)
          (eu_miles_driven validated_data))
       (opt_default (ev_notes instance) (eu_notes validated_data))).

Definition TripEvent_get (s : Store) (k : nat) : option TripEvent :=
  get_by (fun e => is_key (ev_id e) k) (events s).

Definition TripEventViewSet_update (pk : nat) (data : EventUpdateData)
    : M TripEvent := fun s =>
  match TripEvent_get s pk with
  | Some instance => TripEventSerializer_update instance data s
  | None => (inl Http404, s)
  end.

(** Case folding and substring search for [address__icontains]. *)
Definition upper_ascii (c : ascii) : ascii :=
  let n := nat_of_ascii c in
  if ((97 <=? n) && (n <=? 122))%nat then ascii_of_nat (n - 32) else c.

Fixpoint upper (x : string) : string :=
  match x with
  | EmptyString => EmptyString
  | String c rest => String (upper_ascii c) (upper rest)
  end.

Fixpoint starts_with (p x : string) : bool :=
  match p, x with
  | EmptyString, _ => true
  | String a p', String b x' => Ascii.eqb a b && starts_with p' x'
  | String _ _, EmptyString => false
  end.

Fixpoint contains (p x : string) : bool :=
  starts_with p x
  || match x with
     | EmptyString => false
     | String _ rest => contains p rest
     end.

Definition icontains (value query : string) : bool :=
  contains (upper query) (upper value).

(** [Location.Meta.ordering = ["address"]] *)
Definition Location_objects_all (s : Store) : list Location :=
  sort_by (fun a b => (loc_address a <=? loc_address b)%string) (locations s).

(** [LocationViewSet.search]; [q] is [request.query_params.get("q")]. *)
Definition LocationViewSet_search (s : Store) (q : option string)
    : list Location :=
  let query := opt_default "" q in
  if truthy query then
    firstn 10 (filter (fun l => icontains (loc_address l) query)
                 (Location_objects_all s))
  else [].

(** ** The aggregation invariant in the specification's words *)

(** Sum of a column over the events of one type; zero over no events. *)
Fixpoint sum_where (col : TripEvent -> Q) (ty : string)
    (evs : list TripEvent) : Q :=
  match evs with
  | [] => 0
  | e :: rest =>
      if ev_event_type e =? ty then col e + sum_where col ty rest
      else sum_where col ty rest
  end.

Definition no_event_of_type (ty : string) (evs : list TripEvent) : Prop :=
  forall e, In e evs -> ev_event_type e <> ty.

(** The stored totals of [t] equal the grouped sums over its events. *)
Definition totals_agree (s : Store) (t : Trip) : Prop :=
  let evs := Trip_events s t in
  total_driving_hours t == sum_where ev_duration "driving" evs
  /\ total_on_duty_hours t == sum_where ev_duration "on_duty" evs
  /\ total_off_duty_hours t == sum_where ev_duration "off_duty" evs
  /\ total_sleeper_hours t == sum_where ev_duration "sleeper" evs
  /\ total_miles_driving t == sum_where ev_miles_driven "driving" evs.

(** A total over zero matching events is the literal [0.0]. *)
Definition totals_zero_when_empty (s : Store) (t : Trip) : Prop :=
  let evs := Trip_events s t in
  (no_event_of_type "driving" evs ->
     total_driving_hours t = 0 /\ total_miles_driving t = 0)
  /\ (no_event_of_type "on_duty" evs -> total_on_duty_hours t = 0)
  /\ (no_event_of_type "off_duty" evs -> total_off_duty_hours t = 0)
  /\ (no_event_of_type "sleeper" evs -> total_sleeper_hours t = 0).

(** ** Frames and other notions used in the statements *)

(** Two stores agree on every table but [trips]. *)
Definition same_but_trips (s s' : Store) : Prop :=
  locations s' = locations s /\ drivers s' = drivers s
  /\ carriers s' = carriers s /\ vehicles s' = vehicles s
  /\ events s' = events s.

(** What [calculate_totals] leaves in the row besides the five totals. *)
Definition same_but_totals (t t' : Trip) : Prop :=
  trip_id t' = trip_id t /\ trip_date t' = trip_date t
  /\ trip_driver t' = trip_driver t /\ trip_co_driver t' = trip_co_driver t
  /\ trip_vehicle t' = trip_vehicle t
  /\ trip_shipper_and_commodity t' = trip_shipper_and_commodity t
  /\ trip_cycle_rule t' = trip_cycle_rule t
  /\ total_mileage_today t' = total_mileage_today t
  /\ trip_remarks t' = trip_remarks t
  /\ trip_is_completed t' = trip_is_completed t.

(** [e] is a stored event of trip [t]. *)
Definition event_of (s : Store) (t : Trip) (e : TripEvent) : Prop :=
  In e (events s) /\ trip_id t = Some (ev_trip e).

(** The event types [destination_location] filters on. *)
Definition is_driving_boundary (e : TripEvent) : Prop :=
  ev_event_type e = "driving_start" \/ ev_event_type e = "driving_end".

(** The request carries one of the legacy single-location fields. *)
Definition has_legacy (vd : TripCreateData) : bool :=
  is_some (vd_current_location vd) || is_some (vd_pickup_location vd)
  || is_some (vd_dropoff_location vd).

(** The request of the specification's example: a date, the two shorthand
    fields and an empty list of initial events, nothing else. *)
Definition shorthand_body (date : Z) : TripRequestBody :=
  mkTripRequestBody (Some date) None None None None None None None None None
    None None None None (Some []) None None None (Some "AB") None
    (Some "TRK-1").

(** A nested initial event fails validation: its own fields are refused by
    the event serializer, or its [location_data] by the location
    serializer. *)
Definition fails_validation (s : Store) (e : EventData) : Prop :=
  TripEventCreateSerializer_is_valid e = false
  \/ exists ld, ed_location_data e = Some ld
               /\ LocationSerializer_is_valid s ld = false.

(** The body with the five read-only totals replaced. *)
Definition with_derived_totals (body : TripRequestBody)
    (miles driving on_duty off_duty sleeper : option Q) : TripRequestBody :=
  mkTripRequestBody (rq_date body) (rq_driver body) (rq_co_driver body)
    (rq_vehicle body) (rq_shipper_and_commodity body) (rq_cycle_rule body)
    miles (rq_total_mileage_today body) driving on_duty off_duty sleeper
    (rq_remarks body) (rq_is_completed body) (rq_initial_events body)
    (rq_current_location body) (rq_pickup_location body)
    (rq_dropoff_location body) (rq_driver_initial body)
    (rq_carrier_name body) (rq_truck_number body).

(** Referential integrity of [TripEvent.trip]. *)
Definition events_reference_trips (s : Store) : Prop :=
  forall e, In e (events s) -> exists t, Trip_get s (ev_trip e) = Some t.

(** The five totals written by [calculate_totals] are the same in both. *)
Definition same_five_totals (t t' : Trip) : Prop :=
  total_miles_driving t' = total_miles_driving t
  /\ total_driving_hours t' = total_driving_hours t
  /\ total_on_duty_hours t' = total_on_duty_hours t
  /\ total_off_duty_hours t' = total_off_duty_hours t
  /\ total_sleeper_hours t' = total_sleeper_hours t.

(** ** Sample data *)

(** One location, driver, carrier, vehicle and trip, with one driving event
    of two hours and a hundred miles. *)
Definition demo_store : Store :=
  mkStore
    [ mkLocation 1 "12 Main St" (40 # 1) (-75 # 1) "" "" "USA" "" ]
    [ mkDriver 1 "JD" "Jo Doe" "LIC_JD" "" "" ]
    [ mkCarrier 1 "Acme" "DOT_Acme" "" "" "" ]
    [ mkVehicle 1 "TRK-7" "" "" None "VIN7" "" 1 ]
    [ mkTrip (Some 1%nat) 20000 1 None 1 "" "70hr/8day" (100 # 1) 0 (2 # 1)
        0 0 0 "" false ]
    [ mkTripEvent (Some 1%nat) 1 1 "driving" 1000 (2 # 1) (100 # 1) "" ].

Definition demo_trip : Trip :=
  mkTrip (Some 1%nat) 20000 1 None 1 "" "70hr/8day" (100 # 1) 0 (2 # 1)
    0 0 0 "" false.

(** The same store with a stored event typed "driving_end". *)
Definition demo_store_boundary : Store :=
  set_events demo_store
    (events demo_store
     ++ [ mkTripEvent (Some 2%nat) 1 1 "driving_end" 2000 0 0 "" ]).

Definition demo_new_event : TripEvent :=
  mkTripEvent None 1 1 "on_duty" 3000 (1 # 2) 0 "".

Definition demo_location_data (address : string) : LocationData :=
  mkLocationData (Some address) (Some (41 # 1)) (Some (-74 # 1)) None None
    None None.

Definition demo_event_data (duration : Q) (address : string) : EventData :=
  mkEventData (Some "driving") (Some 4000%Z) (Some duration) (Some (10 # 1))
    None (Some (demo_location_data address)).

(** Explicit driver and vehicle together with both shorthands. *)
Definition demo_explicit_request : TripCreateData :=
  mkTripCreateData (Some 20001%Z) (Some 1%nat) None (Some 1%nat) None None
    None None None None None None (Some "ZZ") (Some "Other") (Some "TRK-9").

(** A creation request with explicit driver and vehicle and the given
    initial events. *)
Definition demo_body (initial_events : list EventData) : TripRequestBody :=
  mkTripRequestBody (Some 20001%Z) (Some 1%nat) None (Some 1%nat) None None
    None None None None None None None None (Some initial_events) None None
    None None None None.

Definition demo_legacy_request : TripCreateData :=
  mkTripCreateData (Some 20001%Z) (Some 1%nat) None (Some 1%nat) None None
    None None None (Some (demo_location_data "5 Oak Ave")) None None
    None None None.

(** A body that sets [total_mileage_today] and [total_driving_hours], with
    an empty list of initial events. *)
Definition demo_mileage_body : TripRequestBody :=
  mkTripRequestBody (Some 20001%Z) (Some 1%nat) None (Some 1%nat) None None
    None (Some (77 # 1)) (Some (9 # 1)) None None None None None (Some [])
    None None None None None None.

(** ** serializers.py: method fields *)

(** [TripSerializer.get_events_count]: [obj.events.count()] *)
Definition TripSerializer_get_events_count (s : Store) (obj : Trip) : nat :=
  List.length (Trip_events s obj).

(** The dictionary with keys [address], [lat] and [lng] of the three
    backward-compatible location fields. *)
Record LocationSummary := mkLocationSummary {
  sm_address : string;
  sm_lat : Q;
  sm_lng : Q
}.

Definition location_summary (l : Location) : LocationSummary :=
  mkLocationSummary (loc_address l) (loc_latitude l) (loc_longitude l).

(** [TripSerializer.get_current_location] *)
Definition TripSerializer_get_current_location (s : Store) (obj : Trip)
    : option LocationSummary :=
  match hd_error (sort_by (fun a b => (ev_timestamp b <=? ev_timestamp a)%Z)
                    (Trip_events s obj)) with
  | Some latest_event =>
      option_map location_summary (Location_get s (ev_location latest_event))
  | None => None
  end.

(** [TripSerializer.get_pickup_location] *)
Definition TripSerializer_get_pickup_location (s : Store) (obj : Trip)
    : option LocationSummary :=
  option_map location_summary (Trip_origin_location s obj).

(** [TripSerializer.get_dropoff_location] *)
Definition TripSerializer_get_dropoff_location (s : Store) (obj : Trip)
    : option LocationSummary :=
  option_map location_summary (Trip_destination_location s obj).

(** ** views.py: listings and statistics *)

Definition Driver_get (s : Store) (k : nat) : option Driver :=
  get_by (fun d => (drv_id d =? k)%nat) (drivers s).

Definition Vehicle_get (s : Store) (k : nat) : option Vehicle :=
  get_by (fun v => (veh_id v =? k)%nat) (vehicles s).

(** [order_by("-date")] *)
Definition by_date_desc (a b : Trip) : bool := (trip_date b <=? trip_date a)%Z.

(** [order_by("-timestamp")] *)
Definition by_timestamp_desc (a b : TripEvent) : bool :=
  (ev_timestamp b <=? ev_timestamp a)%Z.

(** [DriverViewSet.trips] *)
Definition DriverViewSet_trips (pk : nat) : M (list Trip) := fun s =>
  match Driver_get s pk with
  | Some driver =>
      (inr (sort_by by_date_desc
              (filter (fun t => (trip_driver t =? drv_id driver)%nat)
                 (trips s))), s)
  | None => (inl Http404, s)
  end.

(** [VehicleViewSet.trips] *)
Definition VehicleViewSet_trips (pk : nat) : M (list Trip) := fun s =>
  match Vehicle_get s pk with
  | Some vehicle =>
      (inr (sort_by by_date_desc
              (filter (fun t => (trip_vehicle t =? veh_id vehicle)%nat)
                 (trips s))), s)
  | None => (inl Http404, s)
  end.

(** [if date_from: filter(date__gte=date_from)] and the same for
    [date_to]; [None] is a missing or empty parameter. *)
Definition in_date_range (date_from date_to : option Z) (t : Trip) : bool :=
  opt_all (fun d => (d <=? trip_date t)%Z) date_from
  && opt_all (fun d => (trip_date t <=? d)%Z) date_to.

(** The response of [hours_summary]; the sums come straight from
    [aggregate], with no fallback for [None]. *)
Record HoursSummary := mkHoursSummary {
  hs_total_driving_hours : option Q;
  hs_total_on_duty_hours : option Q;
  hs_total_miles : option Q;
  hs_trip_count : nat
}.

(** [DriverViewSet.hours_summary] *)
Definition DriverViewSet_hours_summary (pk : nat)
    (date_from date_to : option Z) : M HoursSummary := fun s =>
  match Driver_get s pk with
  | Some driver =>
      let trips :=
        filter (in_date_range date_from date_to)
          (filter (fun t => (trip_driver t =? drv_id driver)%nat) (trips s)) in
      (inr (mkHoursSummary (Sum (map total_driving_hours trips))
              (Sum (map total_on_duty_hours trips))
              (Sum (map total_miles_driving trips))
              (List.length trips)), s)
  | None => (inl Http404, s)
  end.

(** SQL [AVG]: [NULL] over zero rows, else the sum over the row count. *)
Definition Avg (xs : list Q) : option Q :=
  match Sum xs with
  | Some v => Some (v / inject_Z (Z.of_nat (List.length xs)))
  | None => None
  end.

Record TripStatistics := mkTripStatistics {
  st_total_trips : nat;
  st_completed_trips : nat;
  st_total_miles : option Q;
  st_total_driving_hours_sum : option Q;
  st_avg_miles_per_trip : option Q;
  st_avg_driving_hours : option Q
}.

(** [TripViewSet.statistics] *)
Definition TripViewSet_statistics (s : Store) (date_from date_to : option Z)
    : TripStatistics :=
  let queryset := filter (in_date_range date_from date_to) (trips s) in
  mkTripStatistics (List.length queryset)
    (List.length (filter trip_is_completed queryset))
    (Sum (map total_miles_driving queryset))
    (Sum (map total_driving_hours queryset))
    (Avg (map total_miles_driving queryset))
    (Avg (map total_driving_hours queryset)).

(** [Trip.Meta.ordering = ["-date", "-created_at"]].  Rows are appended when
    inserted and rewritten in place afterwards, so the position in the table
    is the order of [created_at]; the stable sort keeps, among trips of one
    date, the later insert first. *)
Definition Trip_objects_all (s : Store) : list Trip :=
  sort_by by_date_desc (rev (trips s)).

(** [TripViewSet.active] *)
Definition TripViewSet_active (s : Store) : list Trip :=
  filter (fun t => negb (trip_is_completed t)) (Trip_objects_all s).

(** [TripEventViewSet.get_queryset]; [trip] is the query parameter. *)
Definition TripEventViewSet_get_queryset (s : Store) (trip : option nat)
    : list TripEvent :=
  let queryset :=
    sort_by (fun a b => (ev_timestamp a <=? ev_timestamp b)%Z) (events s) in
  match trip with
  | Some trip_id => filter (fun e => (ev_trip e =? trip_id)%nat) queryset
  | None => queryset
  end.

(** [timedelta(hours=hours)], with timestamps counted in microseconds since
    the epoch.  A [timedelta] holds at most 999999999 days either way; the
    constructor raises [OverflowError] beyond. *)
Definition timedelta_hours (hours : Z) : option Z :=
  if (Z.abs (hours / 24) <=? 999999999)%Z
  then Some (hours * 3600000000)%Z
  else None.

(** [datetime.min] and [datetime.max]: the first microsecond of year 1 and
    the last of year 9999. *)
Definition DATETIME_MIN : Z := (-62135596800000000)%Z.
Definition DATETIME_MAX : Z := 253402300799999999%Z.

(** [datetime - timedelta], which raises [OverflowError] when the result is
    not a date of the years 1 to 9999. *)
Definition datetime_sub (d delta : Z) : option Z :=
  let r := (d - delta)%Z in
  if ((DATETIME_MIN <=? r) && (r <=? DATETIME_MAX))%Z then Some r else None.

(** [TripEventViewSet.recent]; [now] is [timezone.now()] of
    [django.utils], [hours] the parsed query parameter. *)
Definition TripEventViewSet_recent (now : Z) (s : Store) (trip : option nat)
    (hours : option Z) : Exn + list TripEvent :=
  let hours := opt_default 24%Z hours in
  match timedelta_hours hours with
  | Some delta =>
      match datetime_sub now delta with
      | Some since =>
          inr (firstn 50
                 (sort_by by_timestamp_desc
                    (filter (fun e => (since <=? ev_timestamp e)%Z)
                       (TripEventViewSet_get_queryset s trip))))
      | None => inl OverflowError
      end
  | None => inl OverflowError
  end.

(** [POST /trip-events]: [CreateModelMixin] validates with
    [TripEventCreateSerializer] and calls [serializer.save()] with no
    [trip]; the serializer has no [trip] field either, so after the location
    step [TripEvent.objects.create] inserts a row without parent and the
    NOT NULL column refuses it.  The view opens no transaction of its own;
    [atomic_requests] is the [ATOMIC_REQUESTS] setting of the database,
    which wraps every request in one. *)
Definition TripEventViewSet_create (atomic_requests : bool)
    (data : EventData) : M TripEvent :=
  let view : M TripEvent :=
    if TripEventCreateSerializer_is_valid data then
      match ed_location_data data with
      | Some location_data =>
          s <- get_store ;;
          location <- (if LocationSerializer_is_valid s location_data
                       then LocationSerializer_create
                              (LocationSerializer_validated_data location_data)
                       else raise ValidationError) ;;
          raise IntegrityError
      | None => raise KeyError
      end
    else raise ValidationError in
  if atomic_requests then atomic view else view.

(** ** Notions used in the further statements *)

(** The initial events the intake loop saves. *)
Definition accepted (evs : list EventData) : list EventData :=
  filter TripEventCreateSerializer_is_valid evs.

(** The address an event's [location_data] names, trimmed as the location
    serializer stores it. *)
Definition event_address (d : EventData) : option string :=
  match ed_location_data d with
  | Some ld => option_map strip (ld_address ld)
  | None => None
  end.

(** The columns [complete] leaves alone: all but [is_completed]. *)
Definition same_but_is_completed (t t' : Trip) : Prop :=
  trip_id t' = trip_id t /\ trip_date t' = trip_date t
  /\ trip_driver t' = trip_driver t /\ trip_co_driver t' = trip_co_driver t
  /\ trip_vehicle t' = trip_vehicle t
  /\ trip_shipper_and_commodity t' = trip_shipper_and_commodity t
  /\ trip_cycle_rule t' = trip_cycle_rule t
  /\ total_miles_driving t' = total_miles_driving t
  /\ total_mileage_today t' = total_mileage_today t
  /\ total_driving_hours t' = total_driving_hours t
  /\ total_on_duty_hours t' = total_on_duty_hours t
  /\ total_off_duty_hours t' = total_off_duty_hours t
  /\ total_sleeper_hours t' = total_sleeper_hours t
  /\ trip_remarks t' = trip_remarks t.

(** Referential integrity of a stored trip and of the events' locations. *)
Definition trip_references_ok (s : Store) (t : Trip) : Prop :=
  Trip_fk_ok s t = true.

Definition events_reference_locations (s : Store) (t : Trip) : Prop :=
  forall e, event_of s t e -> exists l, Location_get s (ev_location e) = Some l.

(** The driver's trips in the date range. *)
Definition trips_in_summary (s : Store) (pk : nat)
    (date_from date_to : option Z) : list Trip :=
  filter (fun t => (trip_driver t =? pk)%nat
                   && in_date_range date_from date_to t) (trips s).

(** ** Further sample data *)

(** Explicit driver and vehicle together with the three shorthand fields,
    naming a driver, a carrier and a truck that are not on record. *)
Definition demo_both_body : TripRequestBody :=
  mkTripRequestBody (Some 20001%Z) (Some 1%nat) None (Some 1%nat) None None
    None None None None None None None None (Some []) None None None
    (Some "ZZ") (Some "Other") (Some "TRK-9").

(** Two initial events at new addresses, the first one padded with
    blanks. *)
Definition demo_two_events_body : TripRequestBody :=
  demo_body [ demo_event_data (1 # 1) "  5 Oak Ave ";
              demo_event_data (2 # 1) "7 Pine Rd" ].

(** * Proofs *)

(** ** Lists and rows *)

Lemma find_update_row {A} (same : A -> bool) (r : A) (rows : list A) :
  existsb same rows = true -> same r = true ->
  find same (update_row same r rows) = Some r.
Proof.
  intros Hex Hr. induction rows as [|x rest IH]; simpl in *.
  - discriminate.
  - destruct (same x) eqn:Hx; simpl.
    + now rewrite Hr.
    + rewrite Hx. apply IH. exact Hex.
Qed.

Lemma In_update_row {A} (same : A -> bool) (r : A) (rows : list A) :
  existsb same rows = true -> In r (update_row same r rows).
Proof.
  induction rows as [|x rest IH]; simpl; intros Hex.
  - discriminate.
  - destruct (same x); simpl in *; auto.
Qed.

Lemma find_app_none {A} (p : A -> bool) (l1 l2 : list A) :
  existsb p l1 = false -> find p (l1 ++ l2) = find p l2.
Proof.
  induction l1 as [|x rest IH]; simpl; intros H; auto.
  apply orb_false_iff in H as [Hx Hr]. rewrite Hx. auto.
Qed.

Lemma find_app_some {A} (p : A -> bool) (l1 l2 : list A) (a : A) :
  find p l1 = Some a -> find p (l1 ++ l2) = Some a.
Proof.
  induction l1 as [|x rest IH]; simpl; intros H; [discriminate|].
  destruct (p x); auto.
Qed.

Lemma existsb_find {A} (p : A -> bool) (l : list A) :
  existsb p l = is_some (find p l).
Proof.
  induction l as [|x rest IH]; simpl; auto.
  destruct (p x); simpl; auto.
Qed.

Lemma is_key_eq (o : option nat) (k : nat) :
  is_key o k = true <-> o = Some k.
Proof.
  destruct o as [j|]; simpl; split; intros H; try discriminate.
  - apply Nat.eqb_eq in H. now subst.
  - injection H as ->. apply Nat.eqb_refl.
Qed.

Lemma Trip_get_key (s : Store) (k : nat) (t : Trip) :
  Trip_get s k = Some t -> trip_id t = Some k /\ In t (trips s).
Proof.
  unfold Trip_get, get_by. intros H. apply find_some in H as [Hin Hk].
  apply is_key_eq in Hk. auto.
Qed.

Lemma fresh_id_gt (keys : list nat) (k : nat) :
  In k keys -> (k < fresh_id keys)%nat.
Proof.
  unfold fresh_id. induction keys as [|x rest IH]; simpl; intros H.
  - contradiction.
  - destruct H as [->|H]; [lia|]. specialize (IH H). lia.
Qed.

Lemma keys_of_In {A} (pk : A -> option nat) (rows : list A) (r : A) (k : nat) :
  In r rows -> pk r = Some k -> In k (keys_of pk rows).
Proof.
  intros Hin Hk. unfold keys_of. apply in_flat_map. exists r. split; auto.
  rewrite Hk. now left.
Qed.

Lemma fresh_key_unused {A} (pk : A -> option nat) (rows : list A) :
  existsb (fun r => is_key (pk r) (fresh_id (keys_of pk rows))) rows = false.
Proof.
  destruct (existsb _ rows) eqn:E; auto.
  apply existsb_exists in E as (r & Hin & Hk). apply is_key_eq in Hk.
  pose proof (fresh_id_gt _ _ (keys_of_In pk rows r _ Hin Hk)). lia.
Qed.

(** ** Sums *)

Lemma fold_left_Qplus (l : list Q) (x : Q) :
  fold_left Qplus l x == x + fold_right Qplus 0 l.
Proof.
  revert x. induction l as [|y rest IH]; intros x; simpl.
  - ring.
  - rewrite IH. ring.
Qed.

Lemma or_zero_Sum (l : list Q) : or_zero (Sum l) == fold_right Qplus 0 l.
Proof.
  destruct l as [|x rest]; simpl.
  - reflexivity.
  - destruct (Qeq_bool (fold_left Qplus rest x) 0) eqn:E.
    + apply Qeq_bool_iff in E.
      transitivity (fold_left Qplus rest x);
        [symmetry; exact E | apply fold_left_Qplus].
    + apply fold_left_Qplus.
Qed.

Lemma sum_where_filter (col : TripEvent -> Q) (ty : string)
    (evs : list TripEvent) :
  fold_right Qplus 0 (map col (filter (has_type ty) evs))
  = sum_where col ty evs.
Proof.
  induction evs as [|e rest IH]; simpl; auto.
  unfold has_type at 1. destruct (ev_event_type e =? ty); simpl; now rewrite IH.
Qed.

Lemma aggregate_Sum_sum_where (col : TripEvent -> Q) (ty : string)
    (evs : list TripEvent) :
  or_zero (aggregate_Sum col ty evs) == sum_where col ty evs.
Proof.
  unfold aggregate_Sum. rewrite or_zero_Sum, sum_where_filter. reflexivity.
Qed.

Lemma aggregate_Sum_empty (col : TripEvent -> Q) (ty : string)
    (evs : list TripEvent) :
  no_event_of_type ty evs -> or_zero (aggregate_Sum col ty evs) = 0.
Proof.
  intros Hno. unfold aggregate_Sum.
  replace (filter (has_type ty) evs) with (@nil TripEvent); [reflexivity|].
  symmetry. induction evs as [|e rest IH]; simpl; auto.
  unfold has_type at 1. destruct (ev_event_type e =? ty) eqn:E.
  - apply String.eqb_eq in E. exfalso. apply (Hno e); simpl; auto.
  - apply IH. intros x Hx. apply Hno. now right.
Qed.

(** ** Trip.save and Trip.calculate_totals *)

Lemma Trip_save_frame (t : Trip) (s s' : Store) (r : Exn + Trip) :
  Trip_save t s = (r, s') -> same_but_trips s s'.
Proof.
  unfold Trip_save, same_but_trips. intros H.
  destruct (negb (Trip_fk_ok s t)); [inversion H; subst; auto 6|].
  destruct (opt_required _ (trip_id t)); inversion H; subst; simpl; auto 6.
Qed.

Lemma Trip_save_stored (t t0 t' : Trip) (k : nat) (s s' : Store) :
  Trip_get s k = Some t0 -> trip_id t = Some k ->
  Trip_save t s = (inr t', s') ->
  t' = t /\ Trip_get s' k = Some t.
Proof.
  intros Hget Hk. unfold Trip_save. rewrite Hk. simpl.
  destruct (negb (Trip_fk_ok s t)); [discriminate|].
  assert (Hex : existsb (fun r => is_key (trip_id r) k) (trips s) = true).
  { rewrite existsb_find. unfold Trip_get, get_by in Hget. now rewrite Hget. }
  rewrite Hex. intros H. inversion H; subst. split; auto.
  unfold Trip_get, get_by. simpl. apply find_update_row; auto.
  apply is_key_eq. exact Hk.
Qed.

Lemma Trip_events_ext (s s' : Store) (t t' : Trip) :
  events s' = events s -> trip_id t' = trip_id t ->
  Trip_events s' t' = Trip_events s t.
Proof. unfold Trip_events. now intros -> ->. Qed.

Lemma Trip_calculate_totals_spec (t t' : Trip) (k : nat) (s s' : Store) :
  Trip_get s k = Some t ->
  Trip_calculate_totals t s = (inr t', s') ->
  Trip_get s' k = Some t' /\ same_but_trips s s' /\ same_but_totals t t'
  /\ totals_agree s' t' /\ totals_zero_when_empty s' t'.
Proof.
  intros Hget Hcalc. unfold Trip_calculate_totals in Hcalc.
  pose proof (Trip_get_key _ _ _ Hget) as [Hk _].
  pose proof (Trip_save_frame _ _ _ _ Hcalc) as Hfr.
  eapply Trip_save_stored in Hcalc as [-> Hget']; eauto.
  split; [exact Hget'|]. split; [exact Hfr|].
  split; [unfold same_but_totals; simpl; tauto|].
  destruct Hfr as (_ & _ & _ & _ & Hev).
  match goal with |- context [totals_agree s' ?T] => set (t1 := T) in * end.
  assert (Hevs : Trip_events s' t1 = Trip_events s t)
    by (apply Trip_events_ext; auto).
  split.
  - unfold totals_agree. rewrite Hevs. simpl.
    repeat split; apply aggregate_Sum_sum_where.
  - unfold totals_zero_when_empty. rewrite Hevs. simpl.
    repeat split; intros; now apply aggregate_Sum_empty.
Qed.

(** ** TripEvent.save *)

Lemma TripEvent_super_save_spec (e e1 : TripEvent) (s s1 : Store) :
  TripEvent_super_save e s = (inr e1, s1) ->
  TripEvent_fk_ok s e = true
  /\ trips s1 = trips s /\ locations s1 = locations s
  /\ drivers s1 = drivers s /\ carriers s1 = carriers s
  /\ vehicles s1 = vehicles s
  /\ In e1 (events s1) /\ ev_trip e1 = ev_trip e
  /\ ev_location e1 = ev_location e /\ ev_event_type e1 = ev_event_type e
  /\ ev_duration e1 = ev_duration e /\ ev_miles_driven e1 = ev_miles_driven e.
Proof.
  unfold TripEvent_super_save. intros H.
  destruct (TripEvent_fk_ok s e); simpl in H; [|discriminate].
  destruct (opt_required _ (ev_id e)) eqn:Hst; injection H as <- <-; simpl.
  - repeat split; auto. apply In_update_row.
    destruct (ev_id e) as [k|]; simpl in *; [|discriminate].
    exact Hst.
  - repeat split; auto. apply in_or_app. right. now left.
Qed.

Lemma TripEvent_save_spec (e e' : TripEvent) (s s' : Store) :
  TripEvent_save e s = (inr e', s') ->
  exists t, Trip_get s' (ev_trip e) = Some t
    /\ totals_agree s' t /\ totals_zero_when_empty s' t
    /\ In e' (events s') /\ ev_trip e' = ev_trip e
    /\ (exists t0, Trip_get s (ev_trip e) = Some t0 /\ same_but_totals t0 t)
    /\ locations s' = locations s /\ drivers s' = drivers s
    /\ carriers s' = carriers s /\ vehicles s' = vehicles s.
Proof.
  unfold TripEvent_save, bind, get_store. intros H.
  destruct (TripEvent_super_save e s) as [[x|e1] s1] eqn:Hsup; [discriminate|].
  apply TripEvent_super_save_spec in Hsup
    as (_ & Htr & Hloc & Hdr & Hca & Hve & Hin & Het & _).
  rewrite Het in H.
  destruct (Trip_get s1 (ev_trip e)) as [trip|] eqn:Hget; [|discriminate].
  unfold ret in H.
  destruct (Trip_calculate_totals trip s1) as [[x|t'] s2] eqn:Hcalc;
    [discriminate|].
  inversion H; subst.
  eapply Trip_calculate_totals_spec in Hcalc
    as (Hget' & (Hl & Hd & Hc & Hv & Hev) & Hsame & Hagree & Hzero); eauto.
  assert (Hget0 : Trip_get s (ev_trip e) = Some trip)
    by (unfold Trip_get in *; now rewrite <- Htr).
  exists t'. split; [exact Hget'|]. split; [exact Hagree|].
  split; [exact Hzero|]. split; [now rewrite Hev|]. split; [exact Het|].
  split; [now exists trip|]. repeat split; congruence.
Qed.

Lemma TripEvent_save_inv (e e' : TripEvent) (s s' : Store) :
  TripEvent_save e s = (inr e', s') ->
  exists s1, TripEvent_super_save e s = (inr e', s1) /\ events s' = events s1.
Proof.
  unfold TripEvent_save, bind, get_store. intros H.
  destruct (TripEvent_super_save e s) as [[x|e1] s1] eqn:Hsup; [discriminate|].
  destruct (Trip_get s1 (ev_trip e1)) as [trip|] eqn:Hget; [|discriminate].
  unfold ret in H.
  destruct (Trip_calculate_totals trip s1) as [[x|t'] s2] eqn:Hcalc;
    [discriminate|].
  injection H as <- <-. exists s1. split; auto.
  apply Trip_save_frame in Hcalc. unfold same_but_trips in Hcalc. tauto.
Qed.

Lemma length_update_row {A} (same : A -> bool) (r : A) (rows : list A) :
  List.length (update_row same r rows) = List.length rows.
Proof.
  induction rows as [|x rest IH]; simpl; auto.
  destruct (same x); simpl; auto.
Qed.

Lemma TripEvent_super_save_stored (e e0 e1 : TripEvent) (k : nat)
    (s s1 : Store) :
  TripEvent_get s k = Some e0 -> ev_id e = Some k ->
  TripEvent_super_save e s = (inr e1, s1) ->
  e1 = e /\ TripEvent_get s1 k = Some e
  /\ List.length (events s1) = List.length (events s).
Proof.
  intros Hget Hk. unfold TripEvent_super_save. rewrite Hk. simpl.
  destruct (negb (TripEvent_fk_ok s e)); [discriminate|].
  assert (Hex : existsb (fun r => is_key (ev_id r) k) (events s) = true).
  { rewrite existsb_find. unfold TripEvent_get, get_by in Hget.
    now rewrite Hget. }
  rewrite Hex. intros H. injection H as <- <-. split; auto.
  unfold TripEvent_get, get_by. simpl. split.
  - apply find_update_row; auto. apply is_key_eq. exact Hk.
  - apply length_update_row.
Qed.

(** ** Sorting and [.first()] *)

Lemma In_insert_by {A} (le : A -> A -> bool) (x y : A) (l : list A) :
  In y (insert_by le x l) <-> y = x \/ In y l.
Proof.
  induction l as [|z rest IH]; simpl.
  - intuition.
  - destruct (le x z); simpl; intuition.
Qed.

Lemma In_sort_by {A} (le : A -> A -> bool) (y : A) (l : list A) :
  In y (sort_by le l) <-> In y l.
Proof.
  induction l as [|x rest IH]; simpl.
  - tauto.
  - rewrite In_insert_by, IH. intuition.
Qed.

Section FirstOfSorted.
Context {A : Type} (le : A -> A -> bool).
Hypothesis le_total : forall a b, le a b = true \/ le b a = true.
Hypothesis le_trans :
  forall a b c, le a b = true -> le b c = true -> le a c = true.

Lemma sort_by_first_least (l : list A) (x : A) :
  hd_error (sort_by le l) = Some x ->
  forall y, In y l -> le x y = true.
Proof.
  revert x. induction l as [|a rest IH]; simpl; intros x Hhd y Hy.
    - contradiction.
    - destruct (sort_by le rest) as [|b r] eqn:Hs; simpl in Hhd.
      + injection Hhd as <-. destruct Hy as [<-|Hy].
        * destruct (le_total a a); auto.
        * apply (In_sort_by le) in Hy. rewrite Hs in Hy. contradiction.
      + destruct (le a b) eqn:Hab; simpl in Hhd; injection Hhd as <-.
        * destruct Hy as [<-|Hy].
          -- destruct (le_total a a); auto.
          -- apply le_trans with b; auto.
        * destruct Hy as [<-|Hy].
          -- destruct (le_total b a); auto. congruence.
          -- apply IH; auto.
Qed.

End FirstOfSorted.

Lemma sort_by_first_In {A} (le : A -> A -> bool) (l : list A) (x : A) :
  hd_error (sort_by le l) = Some x -> In x l.
Proof.
  intros H. apply (In_sort_by le).
  destruct (sort_by le l); simpl in H; [discriminate|].
  injection H as <-. now left.
Qed.

Lemma sort_by_nil {A} (le : A -> A -> bool) (l : list A) :
  hd_error (sort_by le l) = None -> l = [].
Proof.
  destruct l as [|a rest]; auto. simpl. intros H.
  assert (Hin : In a (insert_by le a (sort_by le rest)))
    by (apply In_insert_by; now left).
  destruct (insert_by le a (sort_by le rest)); [contradiction|discriminate].
Qed.

(** ** Strings *)

Lemma starts_with_spec (p x : string) :
  starts_with p x = true <-> exists suf, x = (p ++ suf)%string.
Proof.
  revert x. induction p as [|a p IH]; intros x; simpl.
  - split; [intros _; now exists x | auto].
  - destruct x as [|b x]; simpl.
    + split; [discriminate | intros (suf & H); discriminate].
    + rewrite andb_true_iff, Ascii.eqb_eq, IH. split.
      * intros (-> & suf & ->). now exists suf.
      * intros (suf & H). injection H as -> ->. split; auto. now exists suf.
Qed.

Lemma contains_spec (p x : string) :
  contains p x = true <-> exists pre suf, x = (pre ++ p ++ suf)%string.
Proof.
  induction x as [|b x IH].
  - simpl. rewrite orb_false_r, starts_with_spec. split.
    + intros (suf & H). now exists "", suf.
    + intros (pre & suf & H). destruct pre; simpl in H; [now exists suf|].
      discriminate.
  - simpl contains. rewrite orb_true_iff, starts_with_spec, IH. split.
    + intros [(suf & H)|(pre & suf & H)].
      * now exists "", suf.
      * exists (String b pre), suf. simpl. now rewrite H.
    + intros (pre & suf & H). destruct pre as [|c pre]; simpl in H.
      * left. now exists suf.
      * right. injection H as -> ->. now exists pre, suf.
Qed.

Lemma In_firstn {A} (n : nat) (l : list A) (x : A) :
  In x (firstn n l) -> In x l.
Proof.
  revert l. induction n as [|n IH]; intros [|a l]; simpl; try tauto.
  intros [->|H]; auto.
Qed.

(** ** Destination of a trip *)

Lemma Trip_events_In (s : Store) (t : Trip) (e : TripEvent) :
  In e (Trip_events s t) <-> event_of s t e.
Proof.
  unfold Trip_events, event_of. rewrite filter_In, is_key_eq. tauto.
Qed.

Lemma driving_boundary_spec (e : TripEvent) :
  driving_boundary e = true <-> is_driving_boundary e.
Proof.
  unfold driving_boundary, is_driving_boundary. simpl.
  rewrite orb_false_r, orb_true_iff, !String.eqb_eq. tauto.
Qed.

Lemma choices_not_boundary (e : TripEvent) :
  In (ev_event_type e) EVENT_TYPE_CHOICES -> ~ is_driving_boundary e.
Proof.
  unfold is_driving_boundary. simpl. intros Hin [H|H]; rewrite H in Hin;
    repeat (destruct Hin as [Hin|Hin]; [discriminate|]); contradiction.
Qed.

Lemma destination_none (s : Store) (t : Trip) :
  (forall e, event_of s t e -> ~ is_driving_boundary e) ->
  Trip_destination_location s t = None.
Proof.
  intros Hno. unfold Trip_destination_location.
  replace (filter driving_boundary (Trip_events s t)) with (@nil TripEvent);
    [reflexivity|].
  symmetry.
  destruct (filter driving_boundary (Trip_events s t)) as [|e r] eqn:E; auto.
  assert (Hin : In e (filter driving_boundary (Trip_events s t)))
    by (rewrite E; now left).
  apply filter_In in Hin as [Hin Hb].
  exfalso. apply (Hno e); [now apply Trip_events_In|].
  now apply driving_boundary_spec.
Qed.

(** C5. [destination_location] is the location of a latest event of the
    trip whose type is "driving_start" or "driving_end"; it is null when
    the trip has no such event, in particular whenever every event of the
    trip carries one of the eleven declared event types. *)
Theorem Trip_destination_location_spec (s : Store) (t : Trip) :
  ((exists e, event_of s t e /\ is_driving_boundary e) ->
   exists last, event_of s t last /\ is_driving_boundary last
     /\ (forall e, event_of s t e -> is_driving_boundary e ->
           (ev_timestamp e <= ev_timestamp last)%Z)
     /\ Trip_destination_location s t = Location_get s (ev_location last))
  /\ ((forall e, event_of s t e -> ~ is_driving_boundary e) ->
      Trip_destination_location s t = None)
  /\ ((forall e, event_of s t e -> In (ev_event_type e) EVENT_TYPE_CHOICES) ->
      Trip_destination_location s t = None).
Proof.
  split; [|split].
  - intros (e0 & He0 & Hb0). unfold Trip_destination_location.
    set (le := fun a b : TripEvent => (ev_timestamp b <=? ev_timestamp a)%Z).
    set (qs := filter driving_boundary (Trip_events s t)).
    assert (Hin0 : In e0 qs).
    { apply filter_In. split; [now apply Trip_events_In|].
      now apply driving_boundary_spec. }
    destruct (hd_error (sort_by le qs)) as [last|] eqn:Hhd.
    + exists last.
      pose proof (sort_by_first_In _ _ _ Hhd) as Hl.
      apply filter_In in Hl as [Hl Hlb].
      split; [now apply Trip_events_In|].
      split; [now apply driving_boundary_spec|]. split; [|reflexivity].
      intros e He Hb. apply Z.leb_le.
      apply (sort_by_first_least le) with (l := qs) (x := last) (y := e); auto.
      * intros a b. unfold le. rewrite !Z.leb_le. lia.
      * intros a b c. unfold le. rewrite !Z.leb_le. lia.
      * apply filter_In. split; [now apply Trip_events_In|].
        now apply driving_boundary_spec.
    + apply sort_by_nil in Hhd. rewrite Hhd in Hin0. contradiction.
  - apply destination_none.
  - intros Hall. apply destination_none. intros e He.
    apply choices_not_boundary. now apply Hall.
Qed.

(** ** Location search *)

(** C9. [GET /locations/search] returns at most 10 stored locations, the
    address of each contains the query up to letter case, and a missing or
    empty query gives the empty list. *)
Theorem LocationViewSet_search_spec (s : Store) (q : option string) :
  let found := LocationViewSet_search s q in
  (List.length found <= 10)%nat
  /\ (forall l, In l found ->
        In l (locations s)
        /\ exists pre suf,
             upper (loc_address l)
             = (pre ++ upper (opt_default "" q) ++ suf)%string)
  /\ (q = None \/ q = Some "" -> found = []).
Proof.
  unfold LocationViewSet_search. split; [|split].
  - destruct (truthy (opt_default "" q)); [apply firstn_le_length|].
    simpl. lia.
  - intros l Hl. destruct (truthy (opt_default "" q)); [|contradiction].
    apply In_firstn in Hl. apply filter_In in Hl as [Hin Hc].
    unfold Location_objects_all in Hin. apply In_sort_by in Hin.
    split; auto. now apply contains_spec.
  - intros [->| ->]; reflexivity.
Qed.

(** ** Event saves and the aggregation invariant *)

Lemma TripEvent_save_totals (s s' : Store) (e e' : TripEvent) :
  TripEvent_save e s = (inr e', s') ->
  exists t, Trip_get s' (ev_trip e') = Some t
    /\ event_of s' t e'
    /\ totals_agree s' t
    /\ totals_zero_when_empty s' t.
Proof.
  intros H. apply TripEvent_save_spec in H
    as (t & Hget & Hagree & Hzero & Hin & Htrip & _).
  exists t. rewrite Htrip. split; [exact Hget|].
  split; [|split; assumption].
  apply Trip_get_key in Hget as [Hk _]. split; auto. now rewrite Htrip.
Qed.

(** C2. After a successful [TripEvent.save] the stored parent trip has its
    four hour totals and its driving mileage equal to the sums over the
    trip's events of the matching type, and a total with no matching event
    is the literal zero. *)
Theorem TripEvent_save_recomputes_totals (s s' : Store) (e e' : TripEvent) :
  TripEvent_save e s = (inr e', s') ->
  exists t, Trip_get s' (ev_trip e') = Some t
    /\ event_of s' t e'
    /\ totals_agree s' t
    /\ totals_zero_when_empty s' t.
Proof. apply TripEvent_save_totals. Qed.

(** C10. Updating an existing event through [TripEventViewSet] rewrites
    that event in place and, like an insert, leaves the parent trip's
    stored totals equal to the sums over its events. *)
Theorem TripEventViewSet_update_recomputes_totals (s s' : Store) (pk : nat)
    (data : EventUpdateData) (e' : TripEvent) :
  TripEventViewSet_update pk data s = (inr e', s') ->
  (exists old, TripEvent_get s pk = Some old /\ ev_trip e' = ev_trip old)
  /\ TripEvent_get s' pk = Some e'
  /\ List.length (events s') = List.length (events s)
  /\ exists t, Trip_get s' (ev_trip e') = Some t
       /\ event_of s' t e'
       /\ totals_agree s' t
       /\ totals_zero_when_empty s' t.
Proof.
  unfold TripEventViewSet_update. intros H.
  destruct (TripEvent_get s pk) as [old|] eqn:Hold; [|discriminate].
  unfold TripEventSerializer_update in H.
  pose proof (TripEvent_save_inv _ _ _ _ H) as (s1 & Hsup & Hev).
  assert (Hk : ev_id old = Some pk).
  { unfold TripEvent_get, get_by in Hold. apply find_some in Hold as [_ Hk].
    now apply is_key_eq. }
  eapply TripEvent_super_save_stored in Hsup as (He' & Hget1 & Hlen); eauto.
  split; [exists old; split; auto; now rewrite He'|].
  split; [unfold TripEvent_get in *; now rewrite Hev, He'|].
  split; [now rewrite Hev|].
  eapply TripEvent_save_totals; eauto.
Qed.

(** ** Steps of trip intake *)

Lemma legacy_locations_eval (vd : TripCreateData) (s : Store) :
  legacy_locations vd s
  = if has_legacy vd then (inl AttributeError, s) else (inr [], s).
Proof.
  unfold legacy_locations, has_legacy, legacy_event, bind, timezone_now, raise.
  destruct (vd_current_location vd); simpl; auto.
  destruct (vd_pickup_location vd); simpl; auto.
  destruct (vd_dropoff_location vd); simpl; auto.
Qed.

Lemma store_eta (s : Store) :
  mkStore (locations s) (drivers s) (carriers s) (vehicles s) (trips s)
    (events s) = s.
Proof. now destruct s. Qed.

Lemma Driver_objects_get_or_create_spec (i f l : string) (s s1 : Store)
    (d : Driver) :
  Driver_objects_get_or_create i f l s = (inr d, s1) ->
  (Driver_by_initial s i = Some d /\ s1 = s)
  \/ (Driver_by_initial s i = None
      /\ d = mkDriver (fresh_id (map drv_id (drivers s))) i f l "" ""
      /\ s1 = set_drivers s (drivers s ++ [d])).
Proof.
  unfold Driver_objects_get_or_create, Driver_objects_create.
  destruct (Driver_by_initial s i) as [d0|].
  - intros H. injection H as <- <-. now left.
  - destruct (existsb _ (drivers s)); [discriminate|].
    intros H. injection H as <- <-. right. auto.
Qed.

Lemma Carrier_objects_create_spec (n dot : string) (s s1 : Store)
    (c : Carrier) :
  Carrier_objects_create n dot s = (inr c, s1) ->
  c = mkCarrier (fresh_id (map car_id (carriers s))) n dot "" "" ""
  /\ s1 = set_carriers s (carriers s ++ [c]).
Proof.
  unfold Carrier_objects_create. destruct (existsb _ (carriers s));
    [discriminate|].
  intros H. injection H as <- <-. auto.
Qed.

Lemma Vehicle_objects_get_or_create_spec (n : string) (c : nat)
    (s s1 : Store) (v : Vehicle) :
  Vehicle_objects_get_or_create n c s = (inr v, s1) ->
  (Vehicle_by_truck_number s n = Some v /\ s1 = s)
  \/ (Vehicle_by_truck_number s n = None
      /\ v = mkVehicle (fresh_id (map veh_id (vehicles s))) n "" "" None "" "" c
      /\ s1 = set_vehicles s (vehicles s ++ [v])).
Proof.
  unfold Vehicle_objects_get_or_create, Vehicle_objects_create.
  destruct (Vehicle_by_truck_number s n) as [v0|].
  - intros H. injection H as <- <-. now left.
  - destruct (_ || _); [discriminate|].
    intros H. injection H as <- <-. right. auto.
Qed.

Lemma resolve_driver_explicit (vd : TripCreateData) (d : nat) (s : Store) :
  vd_driver vd = Some d -> resolve_driver vd s = (inr (Some d), s).
Proof.
  intros H. unfold resolve_driver. rewrite H. simpl.
  now rewrite andb_false_r.
Qed.

Lemma resolve_driver_frame (vd : TripCreateData) (s s1 : Store)
    (r : option nat) :
  resolve_driver vd s = (inr r, s1) ->
  exists ds, s1 = set_drivers s ds.
Proof.
  unfold resolve_driver, bind, ret.
  destruct (_ && _).
  - destruct (Driver_objects_get_or_create _ _ _ s) as [[x|d] s0] eqn:E;
      [discriminate|].
    intros H. injection H as _ <-.
    apply Driver_objects_get_or_create_spec in E as [[_ ->]|(_ & _ & ->)].
    + exists (drivers s). unfold set_drivers. now rewrite store_eta.
    + eauto.
  - intros H. injection H as _ <-. exists (drivers s). unfold set_drivers.
    now rewrite store_eta.
Qed.

Lemma resolve_vehicle_explicit (vd : TripCreateData) (v : nat) (s : Store) :
  vd_vehicle vd = Some v -> resolve_vehicle vd s = (inr (Some v), s).
Proof.
  intros H. unfold resolve_vehicle. rewrite H. simpl.
  now rewrite andb_false_r.
Qed.

Lemma Trip_objects_create_spec (vd : TripCreateData) (d v : option nat)
    (s s1 : Store) (t : Trip) :
  Trip_objects_create vd d v s = (inr t, s1) ->
  exists date dk vk pk,
    vd_date vd = Some date /\ d = Some dk /\ v = Some vk
    /\ t = mkTrip (Some pk) date dk (opt_default None (vd_co_driver vd)) vk
             (opt_default "" (vd_shipper_and_commodity vd))
             (opt_default "70hr/8day" (vd_cycle_rule vd))
             0 (opt_default 0 (vd_total_mileage_today vd)) 0 0 0 0
             (opt_default "" (vd_remarks vd)) false
    /\ pk = fresh_id (keys_of trip_id (trips s))
    /\ s1 = set_trips s (trips s ++ [t])
    /\ Trip_get s1 pk = Some t.
Proof.
  unfold Trip_objects_create.
  destruct (vd_date vd) as [date|]; [|discriminate].
  destruct d as [dk|]; [|discriminate].
  destruct v as [vk|]; [|discriminate].
  unfold Trip_save. cbn [trip_id opt_required opt_default].
  destruct (negb _); [discriminate|]. cbn.
  intros H. injection H as <- <-.
  exists date, dk, vk, (fresh_id (keys_of trip_id (trips s))).
  repeat split; auto.
  unfold Trip_get, get_by. cbn [trips set_trips].
  rewrite find_app_none by apply fresh_key_unused.
  cbn. now rewrite Nat.eqb_refl.
Qed.

Lemma same_but_totals_refl (t : Trip) : same_but_totals t t.
Proof. unfold same_but_totals. tauto. Qed.

Lemma same_but_totals_trans (a b c : Trip) :
  same_but_totals a b -> same_but_totals b c -> same_but_totals a c.
Proof. unfold same_but_totals. intuition congruence. Qed.

Lemma LocationSerializer_create_frame (d : LocationData) (s s1 : Store)
    (r : Exn + Location) :
  LocationSerializer_create d s = (r, s1) -> exists ls, s1 = set_locations s ls.
Proof.
  assert (Hid : exists ls, s = set_locations s ls).
  { exists (locations s). unfold set_locations. now rewrite store_eta. }
  assert (Hc : forall r1 s2, Location_objects_create d s = (r1, s2) ->
                 exists ls, s2 = set_locations s ls).
  { unfold Location_objects_create. intros r1 s2 H.
    destruct (ld_address d), (ld_latitude d), (ld_longitude d);
      try (injection H as _ <-; exact Hid).
    destruct (existsb _ (locations s)); injection H as _ <-; eauto. }
  unfold LocationSerializer_create.
  destruct (ld_address d) as [a|]; [|apply Hc].
  destruct (Location_by_address s a); [|apply Hc].
  intros H. injection H as _ <-. exact Hid.
Qed.

(** A successful event creation is a location step that touches only the
    [locations] table, followed by [TripEvent.save]. *)
Lemma TripEventCreateSerializer_create_inv (pk : nat) (d : EventData)
    (s s' : Store) (e' : TripEvent) :
  TripEventCreateSerializer_create pk d s = (inr e', s') ->
  exists ls e, ev_trip e = pk
    /\ TripEvent_save e (set_locations s ls) = (inr e', s').
Proof.
  unfold TripEventCreateSerializer_create, bind, get_store.
  destruct (ed_location_data d) as [ld|]; [|discriminate].
  destruct (LocationSerializer_is_valid s ld); [|discriminate].
  destruct (LocationSerializer_create _ s) as [[x|loc] s1] eqn:E;
    [discriminate|].
  apply LocationSerializer_create_frame in E as (ls & ->).
  unfold TripEvent_objects_create.
  destruct (ed_timestamp d) as [ts|]; [|discriminate].
  intros H. eexists ls, _. split; [|exact H]. reflexivity.
Qed.

Lemma save_events_spec (pk : nat) (evs : list EventData) :
  forall (s s' : Store) (t0 : Trip),
  save_events pk evs s = (inr tt, s') ->
  Trip_get s pk = Some t0 ->
  drivers s' = drivers s /\ carriers s' = carriers s
  /\ vehicles s' = vehicles s
  /\ exists t, Trip_get s' pk = Some t /\ same_but_totals t0 t
       /\ (totals_agree s t0 -> totals_agree s' t).
Proof.
  induction evs as [|d rest IH]; intros s s' t0 H Hget.
  - injection H as <-. repeat split; auto. exists t0.
    split; auto. split; auto. apply same_but_totals_refl.
  - simpl in H. unfold bind in H.
    destruct (TripEventCreateSerializer_is_valid d).
    + destruct (TripEventCreateSerializer_create pk _ s) as [[x|e1] s1] eqn:E;
        [discriminate|].
      unfold ret in H.
      apply TripEventCreateSerializer_create_inv in E as (ls & e & Hpk & E).
      apply TripEvent_save_spec in E
        as (t1 & Hget1 & Hagree1 & _ & _ & _ & (t0' & Hget0 & Hsame)
            & _ & Hd & Hc & Hv).
      rewrite Hpk in *.
      assert (t0' = t0) as -> by (unfold Trip_get in *; simpl in *; congruence).
      specialize (IH _ _ _ H Hget1)
        as (Hd' & Hc' & Hv' & t & Hget' & Hsame' & Hagree').
      simpl in Hd, Hc, Hv.
      repeat split; try congruence.
      exists t. split; auto. split; [eapply same_but_totals_trans; eauto|].
      auto.
    + unfold ret in H. eapply IH; eauto.
Qed.

Lemma resolve_carrier_frame (n : option string) (s sc : Store) (c : Carrier) :
  resolve_carrier n s = (inr c, sc) -> exists cs, sc = set_carriers s cs.
Proof.
  assert (Hid : exists cs, s = set_carriers s cs).
  { exists (carriers s). unfold set_carriers. now rewrite store_eta. }
  unfold resolve_carrier, bind, get_store, ret.
  destruct (truthy_opt n).
  - unfold Carrier_objects_get_or_create.
    destruct (Carrier_by_name s _).
    + intros H. injection H as _ <-. exact Hid.
    + intros H. apply Carrier_objects_create_spec in H as [_ ->]. eauto.
  - destruct (Carrier_objects_first s).
    + intros H. injection H as _ <-. exact Hid.
    + intros H. apply Carrier_objects_create_spec in H as [_ ->]. eauto.
Qed.

(** Vehicle resolution writes to [carriers] and [vehicles] only. *)
Lemma resolve_vehicle_frame (vd : TripCreateData) (s s2 : Store)
    (v : option nat) :
  resolve_vehicle vd s = (inr v, s2) ->
  locations s2 = locations s /\ drivers s2 = drivers s
  /\ trips s2 = trips s /\ events s2 = events s.
Proof.
  unfold resolve_vehicle, bind, ret.
  destruct (_ && _).
  - destruct (resolve_carrier _ s) as [[x|carrier] sc] eqn:Ec; [discriminate|].
    destruct (Vehicle_objects_get_or_create _ _ sc) as [[x|vehicle] s3] eqn:E;
      [discriminate|].
    intros H. injection H as _ <-.
    apply resolve_carrier_frame in Ec as (cs & ->).
    apply Vehicle_objects_get_or_create_spec in E as [[_ ->]|(_ & _ & ->)];
      simpl; auto.
  - intros H. injection H as _ <-. auto.
Qed.

(** A successful [TripCreateSerializer.create], step by step. *)
Lemma TripCreateSerializer_create_inv (vd : TripCreateData) (s s' : Store)
    (t : Trip) :
  TripCreateSerializer_create vd s = (inr t, s') ->
  has_legacy vd = false
  /\ exists d s1 v s2 t0 s3 pk,
       resolve_driver vd s = (inr d, s1)
       /\ resolve_vehicle vd s1 = (inr v, s2)
       /\ Trip_objects_create vd d v s2 = (inr t0, s3)
       /\ trip_id t0 = Some pk
       /\ save_events pk (opt_default [] (vd_initial_events vd)) s3
          = (inr tt, s')
       /\ Trip_get s' pk = Some t
       /\ same_but_totals t0 t
       /\ (totals_agree s3 t0 -> totals_agree s' t).
Proof.
  unfold TripCreateSerializer_create, atomic, TripCreateSerializer_create_body.
  unfold bind at 1. rewrite legacy_locations_eval.
  destruct (has_legacy vd); [discriminate|]. intros H. split; auto.
  revert H. unfold bind at 1.
  destruct (resolve_driver vd s) as [[x|d] s1] eqn:Ed; [discriminate|].
  unfold bind at 1.
  destruct (resolve_vehicle vd s1) as [[x|v] s2] eqn:Ev; [discriminate|].
  unfold bind at 1.
  destruct (Trip_objects_create vd d v s2) as [[x|t0] s3] eqn:Et;
    [discriminate|].
  rewrite app_nil_r. unfold bind at 1.
  pose proof (Trip_objects_create_spec _ _ _ _ _ _ Et)
    as (date & dk & vk & pk & _ & _ & _ & Ht0 & _ & _ & Hget3).
  assert (Hpk : trip_id t0 = Some pk) by now rewrite Ht0.
  rewrite Hpk. cbn [opt_default].
  destruct (save_events pk _ s3) as [[x|[]] s4] eqn:Es; [discriminate|].
  pose proof (save_events_spec _ _ _ _ _ Es Hget3)
    as (_ & _ & _ & t' & Hget' & Hsame & Hagree).
  unfold bind, get_store, ret. rewrite Hget'. cbn [opt_default].
  intros H. injection H as <- <-.
  exists d, s1, v, s2, t0, s3, pk.
  repeat (split; [first [assumption | reflexivity]|]). assumption.
Qed.

(** ** Intake claims *)

(** C3. A request carrying any of the three legacy location fields makes
    [TripCreateSerializer.create] raise [AttributeError] at the first
    [timezone.now()]; the transaction is rolled back and no event of type
    "other", "loading" or "unloading" is ever written. *)
Theorem legacy_location_fields_raise (s : Store) (vd : TripCreateData) :
  vd_current_location vd <> None \/ vd_pickup_location vd <> None
  \/ vd_dropoff_location vd <> None ->
  TripCreateSerializer_create vd s = (inl AttributeError, s).
Proof.
  intros H.
  unfold TripCreateSerializer_create, atomic, TripCreateSerializer_create_body.
  unfold bind at 1. rewrite legacy_locations_eval.
  assert (Hl : has_legacy vd = true).
  { unfold has_legacy.
    destruct (vd_current_location vd), (vd_pickup_location vd),
      (vd_dropoff_location vd); simpl; auto.
    destruct H as [H|[H|H]]; congruence. }
  now rewrite Hl.
Qed.

(** C7. In a successfully created trip an explicitly supplied driver, or
    vehicle, is the one the trip references, whatever the shorthand fields
    say; the shorthand lookup is then not run, so the drivers, or the
    vehicles and carriers, are left as they were. *)
Theorem explicit_references_take_precedence (s s' : Store)
    (vd : TripCreateData) (t : Trip) :
  TripCreateSerializer_create vd s = (inr t, s') ->
  (forall d, vd_driver vd = Some d ->
     trip_driver t = d /\ drivers s' = drivers s)
  /\ (forall v, vd_vehicle vd = Some v ->
        trip_vehicle t = v /\ vehicles s' = vehicles s
        /\ carriers s' = carriers s).
Proof.
  intros H. apply TripCreateSerializer_create_inv in H
    as (_ & d & s1 & v & s2 & t0 & s3 & pk & Hd & Hv & Ht & Hpk & Hs & _
        & Hsame & _).
  apply Trip_objects_create_spec in Ht
    as (date & dk & vk & pk' & _ & -> & -> & Ht0 & _ & Hs3 & Hget3).
  assert (pk' = pk) as -> by (rewrite Ht0 in Hpk; simpl in Hpk; congruence).
  apply save_events_spec with (t0 := t0) in Hs as (Hds & Hcs & Hvs & _);
    [|exact Hget3].
  destruct Hsame as (_ & _ & Hdrv & _ & Hveh & _).
  rewrite Ht0 in Hdrv, Hveh. simpl in Hdrv, Hveh.
  subst s3. simpl in Hds, Hcs, Hvs.
  split.
  - intros d0 Hd0. rewrite (resolve_driver_explicit _ _ _ Hd0) in Hd.
    injection Hd as <- <-.
    apply resolve_vehicle_frame in Hv as (_ & Hdr & _).
    split; congruence.
  - intros v0 Hv0. rewrite (resolve_vehicle_explicit _ _ _ Hv0) in Hv.
    injection Hv as <- <-.
    apply resolve_driver_frame in Hd as (ds & ->).
    simpl in *. repeat split; congruence.
Qed.

(** *** Addresses stay unique *)

Lemma TripEvent_save_locations (e : TripEvent) (s s' : Store)
    (r : Exn + TripEvent) :
  TripEvent_save e s = (r, s') -> locations s' = locations s.
Proof.
  unfold TripEvent_save, bind, get_store, ret, raise.
  destruct (TripEvent_super_save e s) as [[x|e1] s1] eqn:Hsup.
  - intros H. injection H as _ <-. unfold TripEvent_super_save in Hsup.
    destruct (negb _); [now injection Hsup as _ <-|].
    destruct (opt_required _ _); discriminate.
  - assert (Hl : locations s1 = locations s).
    { apply TripEvent_super_save_spec in Hsup. tauto. }
    destruct (Trip_get s1 (ev_trip e1)) as [trip|].
    + destruct (Trip_calculate_totals trip s1) as [[x|t'] s2] eqn:Hcalc;
        intros H; injection H as _ <-;
        apply Trip_save_frame in Hcalc; unfold same_but_trips in Hcalc;
        destruct Hcalc as [-> _]; exact Hl.
    + intros H. injection H as _ <-. exact Hl.
Qed.

Lemma LocationSerializer_create_addresses (d : LocationData) (s s1 : Store)
    (r : Exn + Location) :
  NoDup (map loc_address (locations s)) ->
  LocationSerializer_create d s = (r, s1) ->
  NoDup (map loc_address (locations s1)).
Proof.
  intros Hnd.
  assert (Hc : forall r1 s2, Location_objects_create d s = (r1, s2) ->
                 NoDup (map loc_address (locations s2))).
  { unfold Location_objects_create. intros r1 s2 H.
    destruct (ld_address d) as [a|], (ld_latitude d), (ld_longitude d);
      try (injection H as _ <-; exact Hnd).
    destruct (existsb _ (locations s)) eqn:E; injection H as _ <-; auto.
    simpl. rewrite map_app. simpl. apply NoDup_app; auto.
    - repeat constructor. simpl. tauto.
    - intros x Hx [<-|[]]. apply in_map_iff in Hx as (l & Hl & Hin).
      assert (Ht : existsb (fun l0 => loc_address l0 =? a) (locations s)
                   = true).
      { apply existsb_exists. exists l. split; auto. now apply String.eqb_eq. }
      congruence. }
  unfold LocationSerializer_create.
  destruct (ld_address d) as [a|]; [|apply Hc].
  destruct (Location_by_address s a); [|apply Hc].
  intros H. injection H as _ <-. exact Hnd.
Qed.

(** Whatever its outcome, creating an event never leaves two Location rows
    with one address. *)
Lemma event_creation_keeps_addresses_unique (pk : nat) (d : EventData)
    (s s' : Store) (r : Exn + TripEvent) :
  NoDup (map loc_address (locations s)) ->
  TripEventCreateSerializer_create pk d s = (r, s') ->
  NoDup (map loc_address (locations s')).
Proof.
  intros Hnd. unfold TripEventCreateSerializer_create, bind, get_store, raise.
  destruct (ed_location_data d) as [ld|];
    [|intros H; injection H as _ <-; exact Hnd].
  destruct (LocationSerializer_is_valid s ld);
    [|intros H; injection H as _ <-; exact Hnd].
  destruct (LocationSerializer_create _ s) as [[x|loc] s1] eqn:E;
    pose proof (LocationSerializer_create_addresses _ _ _ _ Hnd E) as Hnd1.
  - intros H. injection H as _ <-. exact Hnd1.
  - unfold TripEvent_objects_create.
    destruct (ed_timestamp d);
      [|unfold raise; intros H; injection H as _ <-; exact Hnd1].
    intros H. apply TripEvent_save_locations in H. now rewrite H.
Qed.

(** C8. [TripEventCreateSerializer.create] does not reach
    [get_or_create] when the address of [location_data] is already stored:
    the location serializer is invalid, [ValidationError] is raised, and
    neither a location nor an event is written.  The address is compared
    as the serializer compares it, trimmed; for an address without
    surrounding blanks that is the address itself. *)
Theorem known_address_is_rejected (s : Store) (pk : nat) (d : EventData)
    (ld : LocationData) (a : string) :
  ed_location_data d = Some ld -> ld_address ld = Some a ->
  (exists l, In l (locations s) /\ loc_address l = strip a) ->
  TripEventCreateSerializer_create pk d s = (inl ValidationError, s).
Proof.
  intros Hld Ha (l & Hin & Hl).
  unfold TripEventCreateSerializer_create, bind, get_store. rewrite Hld.
  assert (Hv : LocationSerializer_is_valid s ld = false).
  { unfold LocationSerializer_is_valid. rewrite Ha. simpl.
    assert (Hex : existsb (fun l0 => loc_address l0 =? strip a) (locations s)
                  = true).
    { apply existsb_exists. exists l. split; auto. now apply String.eqb_eq. }
    rewrite Hex. simpl. now rewrite andb_false_r. }
  now rewrite Hv.
Qed.

Lemma existsb_app_last {A} (p : A -> bool) (l : list A) (x : A) :
  p x = true -> existsb p (l ++ [x]) = true.
Proof.
  intros H. rewrite existsb_app. simpl. rewrite H. now rewrite orb_true_r.
Qed.

(** ** What a created event writes *)

Lemma update_row_app_last {A} (same : A -> bool) (r x : A) (rows : list A) :
  existsb same rows = false -> same x = true ->
  update_row same r (rows ++ [x]) = rows ++ [r].
Proof.
  intros Hno Hx. induction rows as [|y rest IH]; simpl in *.
  - now rewrite Hx.
  - apply orb_false_iff in Hno as [Hy Hr]. rewrite Hy. now rewrite IH.
Qed.

Lemma Trip_calculate_totals_effect (t t' : Trip) (k : nat) (s s' : Store) :
  Trip_get s k = Some t ->
  Trip_calculate_totals t s = (inr t', s') ->
  Trip_fk_ok s t = true
  /\ s' = set_trips s
            (update_row (fun r => is_key (trip_id r) k) t' (trips s)).
Proof.
  intros Hget H. pose proof (Trip_get_key _ _ _ Hget) as [Hk _].
  unfold Trip_calculate_totals, Trip_save in H.
  cbn [trip_id] in H. rewrite Hk in H. cbn [opt_required] in H.
  match type of H with
  | context [negb (Trip_fk_ok s ?T)] =>
      change (Trip_fk_ok s T) with (Trip_fk_ok s t) in H
  end.
  destruct (Trip_fk_ok s t); [|discriminate]. cbn [negb] in H.
  assert (Hex : existsb (fun r => is_key (trip_id r) k) (trips s) = true).
  { rewrite existsb_find. unfold Trip_get, get_by in Hget. now rewrite Hget. }
  rewrite Hex in H. injection H as <- <-. auto.
Qed.

Lemma TripEvent_save_steps (e e' : TripEvent) (s s' : Store) :
  TripEvent_save e s = (inr e', s') ->
  exists s1 trip t',
    TripEvent_super_save e s = (inr e', s1)
    /\ Trip_get s1 (ev_trip e') = Some trip
    /\ Trip_calculate_totals trip s1 = (inr t', s').
Proof.
  unfold TripEvent_save, bind, get_store, ret. intros H.
  destruct (TripEvent_super_save e s) as [[x|e1] s1] eqn:Hsup; [discriminate|].
  destruct (Trip_get s1 (ev_trip e1)) as [trip|] eqn:Hget; [|discriminate].
  destruct (Trip_calculate_totals trip s1) as [[x|t'] s2] eqn:Hcalc;
    [discriminate|].
  injection H as <- <-. exists s1, trip, t'. auto.
Qed.

Lemma TripEvent_super_save_insert (e e1 : TripEvent) (s s1 : Store) :
  ev_id e = None ->
  TripEvent_super_save e s = (inr e1, s1) ->
  TripEvent_fk_ok s e = true
  /\ e1 = mkTripEvent (Some (fresh_id (keys_of ev_id (events s))))
             (ev_trip e) (ev_location e) (ev_event_type e) (ev_timestamp e)
             (ev_duration e) (ev_miles_driven e) (ev_notes e)
  /\ s1 = set_events s (events s ++ [e1]).
Proof.
  intros Hid. unfold TripEvent_super_save. rewrite Hid.
  cbn [opt_required opt_default].
  destruct (TripEvent_fk_ok s e); [|discriminate]. cbn [negb].
  intros H. injection H as <- <-. auto.
Qed.

(** Saving a new event: one row appended to [events], the parent's row
    rewritten in place, nothing else. *)
Lemma TripEvent_save_insert (e e' : TripEvent) (s s' : Store) :
  ev_id e = None ->
  TripEvent_save e s = (inr e', s') ->
  exists t0 t',
    Trip_get s (ev_trip e) = Some t0 /\ Trip_fk_ok s t0 = true
    /\ has_pk loc_id (ev_location e) (locations s) = true
    /\ e' = mkTripEvent (Some (fresh_id (keys_of ev_id (events s))))
              (ev_trip e) (ev_location e) (ev_event_type e) (ev_timestamp e)
              (ev_duration e) (ev_miles_driven e) (ev_notes e)
    /\ Trip_get s' (ev_trip e) = Some t'
    /\ same_but_totals t0 t' /\ totals_agree s' t'
    /\ s' = mkStore (locations s) (drivers s) (carriers s) (vehicles s)
              (update_row (fun r => is_key (trip_id r) (ev_trip e)) t'
                 (trips s))
              (events s ++ [e']).
Proof.
  intros Hid H.
  apply TripEvent_save_steps in H as (s1 & trip & t' & Hsup & Hget & Hcalc).
  apply TripEvent_super_save_insert in Hsup as (Hfk & He' & Hs1); auto.
  assert (Htrip : ev_trip e' = ev_trip e) by now rewrite He'.
  rewrite Htrip in Hget.
  assert (Hget0 : Trip_get s (ev_trip e) = Some trip).
  { rewrite Hs1 in Hget. exact Hget. }
  pose proof (Trip_calculate_totals_spec _ _ _ _ _ Hget Hcalc)
    as (Hget' & _ & Hsame & Hagree & _).
  apply Trip_calculate_totals_effect with (k := ev_trip e) in Hcalc
    as [Hfk0 Hs']; [|exact Hget].
  apply andb_true_iff in Hfk as [_ Hloc].
  exists trip, t'. split; [exact Hget0|].
  split; [rewrite Hs1 in Hfk0; exact Hfk0|].
  split; [exact Hloc|]. split; [exact He'|]. split; [exact Hget'|].
  split; [exact Hsame|]. split; [exact Hagree|].
  rewrite Hs', Hs1. reflexivity.
Qed.

(** *** Trimming *)

Lemma lstrip_head (x : string) :
  match lstrip x with
  | String c _ => is_space c = false
  | EmptyString => True
  end.
Proof.
  induction x as [|c r IH]; simpl; auto.
  destruct (is_space c) eqn:E; auto.
Qed.

Lemma rstrip_head (c : ascii) (r : string) :
  is_space c = false -> rstrip (String c r) = String c (rstrip r).
Proof. intros H. simpl. rewrite H. now destruct (rstrip r). Qed.

Lemma rstrip_idempotent (x : string) : rstrip (rstrip x) = rstrip x.
Proof.
  induction x as [|c r IH]; simpl; auto.
  destruct (rstrip r) as [|c' k] eqn:E.
  - destruct (is_space c) eqn:Hc; simpl; auto. now rewrite Hc.
  - simpl in *. now rewrite IH.
Qed.

Lemma strip_idempotent (x : string) : strip (strip x) = strip x.
Proof.
  unfold strip. pose proof (lstrip_head x) as H.
  destruct (lstrip x) as [|c r]; auto.
  rewrite (rstrip_head _ _ H). simpl lstrip. rewrite H.
  rewrite <- (rstrip_head _ _ H). apply rstrip_idempotent.
Qed.

Lemma CharField_is_valid_strip (limit : option nat) (allow_blank : bool)
    (x : string) :
  CharField_is_valid limit allow_blank (strip x)
  = CharField_is_valid limit allow_blank x.
Proof. unfold CharField_is_valid. now rewrite strip_idempotent. Qed.

(** Validating validated event data again changes nothing: the loop of
    [TripCreateSerializer.create] accepts what the nested field accepted. *)
Lemma TripEventCreateSerializer_is_valid_again (d : EventData) :
  TripEventCreateSerializer_is_valid
    (TripEventCreateSerializer_validated_data d)
  = TripEventCreateSerializer_is_valid d.
Proof.
  unfold TripEventCreateSerializer_is_valid,
    TripEventCreateSerializer_validated_data. simpl.
  destruct (ed_notes d) as [n|]; simpl; auto.
  now rewrite CharField_is_valid_strip.
Qed.

(** *** The location step *)

Lemma LocationSerializer_valid_address (s : Store) (ld : LocationData) :
  LocationSerializer_is_valid s ld = true ->
  exists a lat lng,
    ld_address ld = Some a /\ ld_latitude ld = Some lat
    /\ ld_longitude ld = Some lng
    /\ existsb (fun l => loc_address l =? strip a) (locations s) = false.
Proof.
  unfold LocationSerializer_is_valid. intros H.
  do 4 (apply andb_true_iff in H as [H _]).
  apply andb_true_iff in H as [H Hlng]. apply andb_true_iff in H as [Ha Hlat].
  destruct (ld_address ld) as [a|]; [|discriminate].
  destruct (ld_latitude ld) as [lat|]; [|discriminate].
  destruct (ld_longitude ld) as [lng|]; [|discriminate].
  exists a, lat, lng. repeat split; auto. simpl in Ha.
  apply andb_true_iff in Ha as [_ Ha]. now apply negb_true_iff in Ha.
Qed.

(** The more rows are stored, the fewer addresses are free. *)
Lemma LocationSerializer_is_valid_earlier (s s1 : Store) (ld : LocationData) :
  (forall l, In l (locations s) -> In l (locations s1)) ->
  LocationSerializer_is_valid s1 ld = true ->
  LocationSerializer_is_valid s ld = true.
Proof.
  intros Hsub H. unfold LocationSerializer_is_valid in *.
  destruct (ld_address ld) as [a|]; [|exact H]. cbn [opt_required] in *.
  destruct (existsb (fun l => loc_address l =? strip a) (locations s1))
    eqn:E1.
  { rewrite andb_false_r in H. discriminate. }
  destruct (existsb (fun l => loc_address l =? strip a) (locations s))
    eqn:E0; [|exact H].
  apply existsb_exists in E0 as (l & Hin & Hl).
  assert (E : existsb (fun l => loc_address l =? strip a) (locations s1)
              = true).
  { apply existsb_exists. exists l. auto. }
  congruence.
Qed.

(** A valid [location_data] always creates its Location, under the trimmed
    address: the lookup of [get_or_create] can not find a row. *)
Lemma valid_location_is_created (s : Store) (ld : LocationData) :
  LocationSerializer_is_valid s ld = true ->
  exists l a, ld_address ld = Some a /\ loc_address l = strip a
    /\ loc_id l = fresh_id (map loc_id (locations s))
    /\ ~ In (strip a) (map loc_address (locations s))
    /\ LocationSerializer_create (LocationSerializer_validated_data ld) s
       = (inr l, set_locations s (locations s ++ [l])).
Proof.
  intros H. apply LocationSerializer_valid_address in H
    as (a & lat & lng & Ha & Hlat & Hlng & Hex).
  unfold LocationSerializer_create, Location_objects_create,
    Location_by_address, get_by, LocationSerializer_validated_data.
  cbn [ld_address ld_latitude ld_longitude ld_city ld_state ld_country
         ld_postal_code].
  rewrite Ha, Hlat, Hlng. cbn [option_map].
  assert (Hf : find (fun l => loc_address l =? strip a) (locations s) = None).
  { pose proof (existsb_find (fun l => loc_address l =? strip a)
                  (locations s)) as E.
    rewrite Hex in E. now destruct (find _ (locations s)). }
  rewrite Hf, Hex.
  eexists. exists a.
  split; [reflexivity|].
  split; [|split; [|split; [|reflexivity]]]; [reflexivity | reflexivity |].
  intros Hin. apply in_map_iff in Hin as (l & Hl & Hin).
  assert (Ht : existsb (fun l0 => loc_address l0 =? strip a) (locations s)
               = true).
  { apply existsb_exists. exists l. split; auto. now apply String.eqb_eq. }
  congruence.
Qed.

(** What a successful [TripEventCreateSerializer.create] writes. *)
Lemma TripEventCreateSerializer_create_effect (pk : nat) (d : EventData)
    (s s' : Store) (e' : TripEvent) :
  TripEventCreateSerializer_create pk d s = (inr e', s') ->
  exists ld a l t0 t',
    ed_location_data d = Some ld /\ LocationSerializer_is_valid s ld = true
    /\ ld_address ld = Some a /\ loc_address l = strip a
    /\ ~ In (strip a) (map loc_address (locations s))
    /\ Trip_get s pk = Some t0 /\ Trip_fk_ok s t0 = true
    /\ ev_trip e' = pk /\ ev_location e' = loc_id l
    /\ ev_event_type e' = opt_default "" (ed_event_type d)
    /\ ev_duration e' = opt_default 0 (ed_duration d)
    /\ ev_miles_driven e' = opt_default 0 (ed_miles_driven d)
    /\ Trip_get s' pk = Some t'
    /\ same_but_totals t0 t' /\ totals_agree s' t'
    /\ s' = mkStore (locations s ++ [l]) (drivers s) (carriers s)
              (vehicles s)
              (update_row (fun r => is_key (trip_id r) pk) t' (trips s))
              (events s ++ [e']).
Proof.
  unfold TripEventCreateSerializer_create, bind, get_store. intros H.
  destruct (ed_location_data d) as [ld|]; [|discriminate].
  destruct (LocationSerializer_is_valid s ld) eqn:Hv; [|discriminate].
  destruct (valid_location_is_created _ _ Hv)
    as (l & a & Ha & Hl & _ & Hnew & Hc).
  rewrite Hc in H. unfold TripEvent_objects_create in H.
  destruct (ed_timestamp d) as [ts|]; [|discriminate].
  apply TripEvent_save_insert in H
    as (t0 & t' & Hget0 & Hfk0 & _ & He' & Hget' & Hsame & Hagree & Hs');
    [|reflexivity].
  cbn [ev_trip ev_location ev_event_type ev_timestamp ev_duration
    ev_miles_driven ev_notes] in *.
  exists ld, a, l, t0, t'. subst e'.
  repeat (split; [first [assumption | reflexivity]|]).
  rewrite Hs'. reflexivity.
Qed.

(** *** The loop over the events *)

Lemma save_events_effect (pk : nat) (evs : list EventData) :
  forall (s s' : Store) (l0 : list Trip) (t0 : Trip),
  save_events pk evs s = (inr tt, s') ->
  trips s = l0 ++ [t0] ->
  existsb (fun r => is_key (trip_id r) pk) l0 = false ->
  trip_id t0 = Some pk ->
  exists new_locs new_events t,
    s' = mkStore (locations s ++ new_locs) (drivers s) (carriers s)
           (vehicles s) (l0 ++ [t]) (events s ++ new_events)
    /\ trip_id t = Some pk
    /\ map (fun l => Some (loc_address l)) new_locs
       = map event_address (accepted evs)
    /\ List.length new_events = List.length (accepted evs)
    /\ (forall e, In e new_events -> ev_trip e = pk)
    /\ NoDup (map loc_address new_locs)
    /\ (forall l, In l new_locs ->
          ~ In (loc_address l) (map loc_address (locations s))).
Proof.
  induction evs as [|d rest IH]; intros s s' l0 t0 H Htrips Hfresh Hpk.
  - injection H as <-. exists [], [], t0. rewrite !app_nil_r, <- Htrips.
    split; [now rewrite store_eta|]. split; [exact Hpk|].
    repeat split; auto; try constructor; contradiction.
  - simpl in H. unfold bind in H. unfold accepted. simpl.
    fold (accepted rest).
    destruct (TripEventCreateSerializer_is_valid d) eqn:Hvalid.
    + destruct (TripEventCreateSerializer_create pk _ s) as [[x|e1] s1] eqn:E;
        [discriminate|].
      unfold ret in H.
      apply TripEventCreateSerializer_create_effect in E
        as (ld & a & l & t1 & t2 & Hld & _ & Ha & Hl & Hnew & _ & _ & Htrip
            & _ & _ & _ & _ & Hget2 & _ & _ & Hs1).
      pose proof (Trip_get_key _ _ _ Hget2) as [Hk2 _].
      rewrite Htrips, update_row_app_last in Hs1; auto;
        [|apply is_key_eq; exact Hpk].
      specialize (IH s1 s' l0 t2 H).
      rewrite Hs1 in IH. cbn [trips locations drivers carriers vehicles events]
        in IH.
      destruct (IH eq_refl Hfresh Hk2)
        as (nl & ne & t & Hs' & Hkt & Hmap & Hlen & Hev & Hnd & Hold).
      exists (l :: nl), (e1 :: ne), t.
      rewrite <- !app_assoc in Hs'. simpl in Hs'.
      split; [exact Hs'|]. split; [exact Hkt|].
      split; [simpl; rewrite Hmap; unfold event_address at 2;
              simpl in Hld; rewrite Hld, Ha, Hl; reflexivity|].
      split; [simpl; now rewrite Hlen|].
      split; [intros e [<-|He]; auto|].
      assert (Hnot : forall l', In l' nl -> loc_address l' <> strip a /\
                       ~ In (loc_address l') (map loc_address (locations s))).
      { intros l' Hin. specialize (Hold l' Hin).
        rewrite map_app, in_app_iff in Hold. simpl in Hold. rewrite Hl in Hold.
        split; intros Hc; apply Hold; auto. }
      split.
      * simpl. constructor; auto. rewrite Hl. intros Hin.
        apply in_map_iff in Hin as (l' & Hl' & Hin).
        now destruct (Hnot l' Hin).
      * intros l' [<-|Hin]; [now rewrite Hl|]. now destruct (Hnot l' Hin).
    + unfold ret in H. eapply IH; eauto.
Qed.

(** Every entry the loop saved had location data that was valid when the
    loop started. *)
Lemma save_events_locations_valid (pk : nat) (evs : list EventData) :
  forall (s s' : Store),
  save_events pk evs s = (inr tt, s') ->
  forall e ld, In e evs -> TripEventCreateSerializer_is_valid e = true ->
    ed_location_data e = Some ld -> LocationSerializer_is_valid s ld = true.
Proof.
  induction evs as [|d rest IH]; intros s s' H e ld Hin Hvalid Hld;
    [contradiction|].
  simpl in H. unfold bind in H.
  destruct (TripEventCreateSerializer_is_valid d) eqn:Hd.
  - destruct (TripEventCreateSerializer_create pk _ s) as [[x|e1] s1] eqn:E;
      [discriminate|].
    unfold ret in H.
    apply TripEventCreateSerializer_create_effect in E
      as (ld0 & a & l & t1 & t2 & Hld0 & Hv0 & _ & _ & _ & _ & _ & _
          & _ & _ & _ & _ & _ & _ & _ & Hs1).
    destruct Hin as [<-|Hin].
    + simpl in Hld0. congruence.
    + apply LocationSerializer_is_valid_earlier with (s1 := s1).
      * rewrite Hs1. simpl. intros l0 Hl0. apply in_or_app. now left.
      * eapply IH; eauto.
  - unfold ret in H. destruct Hin as [<-|Hin]; [congruence|].
    eapply IH; eauto.
Qed.

(** ** The creation request *)

(** The decorator at work: a failed [create] leaves no trace. *)
Lemma TripCreateSerializer_create_atomic (vd : TripCreateData)
    (s s' : Store) (x : Exn) :
  TripCreateSerializer_create vd s = (inl x, s') -> s' = s.
Proof.
  unfold TripCreateSerializer_create, atomic.
  destruct (TripCreateSerializer_create_body vd s) as [[y|t] s1];
    intros H; [now injection H | discriminate].
Qed.

(** An event whose own fields pass but whose [location_data] does not is
    not passed over: the event serializer's [create] raises. *)
Lemma invalid_location_raises (pk : nat) (d : EventData) (ld : LocationData)
    (s : Store) :
  ed_location_data d = Some ld -> LocationSerializer_is_valid s ld = false ->
  TripEventCreateSerializer_create pk d s = (inl ValidationError, s).
Proof.
  intros Hld Hv. unfold TripEventCreateSerializer_create, bind, get_store.
  now rewrite Hld, Hv.
Qed.

(** A created trip went through validation and then through [create]. *)
Lemma TripViewSet_create_inv (body : TripRequestBody) (s s' : Store)
    (t : Trip) :
  TripViewSet_create body s = (inr t, s') ->
  TripCreateSerializer_is_valid s body = true
  /\ TripCreateSerializer_create (TripCreateSerializer_validated_data body) s
     = (inr t, s').
Proof.
  unfold TripViewSet_create, bind, get_store.
  destruct (TripCreateSerializer_is_valid s body); [auto | discriminate].
Qed.

Lemma TripViewSet_create_refused (body : TripRequestBody) (s : Store) :
  TripCreateSerializer_is_valid s body = false ->
  TripViewSet_create body s = (inl ValidationError, s).
Proof.
  intros H. unfold TripViewSet_create, bind, get_store. now rewrite H.
Qed.

(** What a valid creation request carries. *)
Lemma TripCreateSerializer_is_valid_inv (s : Store) (body : TripRequestBody) :
  TripCreateSerializer_is_valid s body = true ->
  exists date d v evs,
    rq_date body = Some date
    /\ rq_driver body = Some d /\ has_pk drv_id d (drivers s) = true
    /\ rq_vehicle body = Some v /\ has_pk veh_id v (vehicles s) = true
    /\ rq_initial_events body = Some evs
    /\ forallb TripEventCreateSerializer_is_valid evs = true.
Proof.
  unfold TripCreateSerializer_is_valid. intros H.
  repeat match goal with
         | H : _ && _ = true |- _ => apply andb_true_iff in H as [H ?]
         end.
  destruct (rq_date body) as [date|]; [|discriminate].
  destruct (rq_driver body) as [d|]; [|discriminate].
  destruct (rq_vehicle body) as [v|]; [|discriminate].
  destruct (rq_initial_events body) as [evs|]; [|discriminate].
  exists date, d, v, evs. repeat split; assumption.
Qed.

(** C1. A creation request one of whose initial events fails validation
    creates nothing: the request ends in an exception and the store is the
    initial one, without the Trip and without any event.  An event whose
    own fields are refused (a negative duration, say) makes the serializer
    refuse the request before [create] runs; an event whose location data
    is refused makes the event serializer's [create] raise inside
    [TripCreateSerializer.create], and the transaction is rolled back. *)
Theorem invalid_initial_event_fails_creation (s : Store)
    (body : TripRequestBody) (initial_events : list EventData)
    (e : EventData) :
  rq_initial_events body = Some initial_events -> In e initial_events ->
  fails_validation s e ->
  (exists x, TripViewSet_create body s = (inl x, s))
  /\ (TripEventCreateSerializer_is_valid e = false ->
      TripViewSet_create body s = (inl ValidationError, s)).
Proof.
  intros Hevs Hin Hfail.
  assert (Hfields : TripEventCreateSerializer_is_valid e = false ->
                    TripViewSet_create body s = (inl ValidationError, s)).
  { intros He. apply TripViewSet_create_refused.
    destruct (TripCreateSerializer_is_valid s body) eqn:Hvalid; auto.
    apply TripCreateSerializer_is_valid_inv in Hvalid
      as (_ & _ & _ & evs & _ & _ & _ & _ & _ & Hevs' & Hall).
    rewrite Hevs in Hevs'. injection Hevs' as <-.
    rewrite forallb_forall in Hall. rewrite (Hall e Hin) in He.
    discriminate. }
  split; [|exact Hfields].
  destruct (TripEventCreateSerializer_is_valid e) eqn:He;
    [|eexists; apply Hfields; reflexivity].
  destruct Hfail as [Hfail|(ld & Hld & Hloc)]; [congruence|].
  destruct (TripCreateSerializer_is_valid s body) eqn:Hvalid;
    [|eexists; now apply TripViewSet_create_refused].
  unfold TripViewSet_create, bind, get_store. rewrite Hvalid.
  destruct (TripCreateSerializer_create
              (TripCreateSerializer_validated_data body) s)
    as [[x|t] s'] eqn:Hrun.
  { apply TripCreateSerializer_create_atomic in Hrun as ->. now exists x. }
  exfalso.
  apply TripCreateSerializer_create_inv in Hrun
    as (_ & d & s1 & v & s2 & t0 & s3 & pk & Hrd & Hrv & Ht & _ & Hs & _).
  apply resolve_driver_frame in Hrd as (ds & ->).
  apply resolve_vehicle_frame in Hrv as (Hl2 & _).
  apply Trip_objects_create_spec in Ht
    as (_ & _ & _ & _ & _ & _ & _ & _ & _ & Hs3 & _).
  cbn [vd_initial_events TripCreateSerializer_validated_data] in Hs.
  rewrite Hevs in Hs. cbn [option_map opt_default] in Hs.
  assert (Hok : LocationSerializer_is_valid s3 ld = true).
  { apply (save_events_locations_valid _ _ _ _ Hs
             (TripEventCreateSerializer_validated_data e) ld).
    - now apply in_map.
    - now rewrite TripEventCreateSerializer_is_valid_again.
    - exact Hld. }
  assert (Hsame : LocationSerializer_is_valid s ld = true).
  { apply LocationSerializer_is_valid_earlier with (s1 := s3); auto.
    rewrite Hs3. cbn [locations set_trips]. rewrite Hl2. auto. }
  congruence.
Qed.

(** C6, what the code does.  [driver] and [vehicle] are required fields of
    the creation serializer: a request that leaves one of them out is
    refused by the validation, whatever it carries in [driver_initial],
    [carrier_name] and [truck_number], and nothing is stored.  The branches
    of [create] that resolve a Carrier and a Vehicle from the shorthand
    fields are never entered; the request with only [driver_initial="AB"]
    and [truck_number="TRK-1"] creates no Driver, no Carrier, no Vehicle
    and no Trip. *)
Theorem shorthand_request_is_refused (s : Store) (body : TripRequestBody) :
  rq_driver body = None \/ rq_vehicle body = None ->
  TripViewSet_create body s = (inl ValidationError, s).
Proof.
  intros H. apply TripViewSet_create_refused.
  destruct (TripCreateSerializer_is_valid s body) eqn:Hvalid; auto.
  apply TripCreateSerializer_is_valid_inv in Hvalid
    as (_ & d & v & _ & _ & Hd & _ & Hv & _).
  destruct H; congruence.
Qed.

(** ** Which totals a client can set *)

Lemma created_trip_totals (s s' : Store) (vd : TripCreateData) (t : Trip) :
  events_reference_trips s ->
  TripCreateSerializer_create vd s = (inr t, s') ->
  totals_agree s' t
  /\ total_mileage_today t = opt_default 0 (vd_total_mileage_today vd).
Proof.
  intros Hrefs H. apply TripCreateSerializer_create_inv in H
    as (_ & d & s1 & v & s2 & t0 & s3 & pk & Hd & Hv & Ht & Hpk & _ & _
        & Hsame & Hagree).
  apply resolve_driver_frame in Hd as (ds & ->).
  apply resolve_vehicle_frame in Hv as (_ & _ & Htr & Hev).
  simpl in Htr, Hev.
  apply Trip_objects_create_spec in Ht
    as (date & dk & vk & pk' & _ & _ & _ & Ht0 & Hfresh & Hs3 & _).
  assert (pk' = pk) as -> by (rewrite Ht0 in Hpk; simpl in Hpk; congruence).
  split.
  - apply Hagree. unfold totals_agree.
    assert (Hnil : Trip_events s3 t0 = []).
    { unfold Trip_events. rewrite Hpk, Hs3. cbn [events set_trips].
      rewrite Hev.
      destruct (filter _ (events s)) as [|e r] eqn:E; auto.
      assert (Hin : In e (filter (fun e0 => is_key (Some pk) (ev_trip e0))
                            (events s))) by (rewrite E; now left).
      apply filter_In in Hin as [Hin Hk]. simpl in Hk.
      apply Nat.eqb_eq in Hk.
      destruct (Hrefs e Hin) as (t1 & Hget).
      apply Trip_get_key in Hget as [Hk1 Hin1].
      pose proof (fresh_id_gt _ _ (keys_of_In trip_id _ _ _ Hin1 Hk1)) as Hlt.
      rewrite <- Htr, <- Hfresh in Hlt. lia. }
    rewrite Hnil, Ht0. simpl. repeat split; reflexivity.
  - destruct Hsame as (_ & _ & _ & _ & _ & _ & _ & Hm & _).
    rewrite Hm, Ht0. reflexivity.
Qed.

Lemma updated_trip_totals (s s' : Store) (pk : nat) (ud : TripUpdateData)
    (t t' : Trip) :
  Trip_get s pk = Some t ->
  TripSerializer_update t ud s = (inr t', s') ->
  Trip_get s' pk = Some t' /\ same_five_totals t t'
  /\ total_mileage_today t'
     = opt_default (total_mileage_today t) (ud_total_mileage_today ud).
Proof.
  intros Hget H. unfold TripSerializer_update in H.
  pose proof (Trip_get_key _ _ _ Hget) as [Hk _].
  eapply Trip_save_stored in H as [-> Hget']; eauto.
  split; [exact Hget'|]. unfold same_five_totals. simpl. tauto.
Qed.

(** C4, as the code has it.  Creation and update ignore whatever the body
    says about total_miles_driving, total_driving_hours,
    total_on_duty_hours, total_off_duty_hours and total_sleeper_hours: a
    created trip carries the aggregated sums, an updated trip keeps its
    stored values.  total_mileage_today is a writable field of both
    serializers and is stored as the client sends it. *)
Theorem five_totals_are_read_only :
  (forall s body miles driving on_duty off_duty sleeper,
     TripViewSet_create
       (with_derived_totals body miles driving on_duty off_duty sleeper) s
     = TripViewSet_create body s
     /\ forall pk,
          TripViewSet_update pk
            (with_derived_totals body miles driving on_duty off_duty sleeper) s
          = TripViewSet_update pk body s)
  /\ (forall s s' body t,
        events_reference_trips s ->
        TripViewSet_create body s = (inr t, s') ->
        totals_agree s' t
        /\ total_mileage_today t
           = opt_default 0 (rq_total_mileage_today body))
  /\ (forall s s' pk body t',
        TripViewSet_update pk body s = (inr t', s') ->
        exists t, Trip_get s pk = Some t /\ Trip_get s' pk = Some t'
          /\ same_five_totals t t'
          /\ total_mileage_today t'
             = opt_default (total_mileage_today t)
                 (rq_total_mileage_today body)).
Proof.
  split; [|split].
  - intros. split; reflexivity.
  - intros s s' body t Hrefs H. apply TripViewSet_create_inv in H as [_ H].
    now apply created_trip_totals in H.
  - intros s s' pk body t' H.
    unfold TripViewSet_update, bind, TripViewSet_get_object in H.
    destruct (Trip_get s pk) as [t|] eqn:Hget; [|discriminate].
    exists t. split; auto.
    now apply updated_trip_totals with (pk := pk) in H.
Qed.

(** ** Worked examples *)

Lemma TripEvent_save_example :
  exists e' s',
    TripEvent_save demo_new_event demo_store = (inr e', s')
    /\ exists t, Trip_get s' (ev_trip e') = Some t
         /\ event_of s' t e' /\ totals_agree s' t
         /\ totals_zero_when_empty s' t.
Proof.
  eexists. eexists. split; [vm_compute; reflexivity|].
  apply (TripEvent_save_recomputes_totals demo_store _ demo_new_event _).
  vm_compute. reflexivity.
Defined.

Lemma TripEventViewSet_update_example :
  exists e' s',
    TripEventViewSet_update 1
      (mkEventUpdateData None None (Some (3 # 1)) None None None) demo_store
    = (inr e', s')
    /\ TripEvent_get s' 1 = Some e'
    /\ exists t, Trip_get s' (ev_trip e') = Some t /\ totals_agree s' t.
Proof.
  eexists. eexists. split; [vm_compute; reflexivity|].
  destruct (TripEventViewSet_update_recomputes_totals demo_store _ 1
              (mkEventUpdateData None None (Some (3 # 1)) None None None) _
              ltac:(vm_compute; reflexivity))
    as (_ & Hget & _ & t & Ht & _ & Hagree & _).
  split; [exact Hget|]. exists t. split; assumption.
Defined.

Lemma Trip_destination_location_example :
  Trip_destination_location demo_store demo_trip = None
  /\ exists last,
       is_driving_boundary last
       /\ Trip_destination_location demo_store_boundary demo_trip
          = Location_get demo_store_boundary (ev_location last).
Proof.
  split.
  - apply (proj2 (proj2 (Trip_destination_location_spec demo_store demo_trip))).
    intros e [Hin _]. simpl in Hin. destruct Hin as [<-|[]]. simpl. auto.
  - destruct (proj1 (Trip_destination_location_spec demo_store_boundary
                       demo_trip))
      as (last & _ & Hb & _ & Hd).
    + exists (mkTripEvent (Some 2%nat) 1 1 "driving_end" 2000 0 0 "").
      split; [split; [simpl; auto | reflexivity] | right; reflexivity].
    + exists last. split; assumption.
Defined.

Lemma LocationViewSet_search_example :
  (List.length (LocationViewSet_search demo_store (Some "main")) <= 10)%nat
  /\ LocationViewSet_search demo_store (Some "") = [].
Proof.
  split.
  - exact (proj1 (LocationViewSet_search_spec demo_store (Some "main"))).
  - apply (proj2 (proj2 (LocationViewSet_search_spec demo_store (Some "")))).
    right. reflexivity.
Defined.

Lemma legacy_location_fields_example :
  vd_current_location demo_legacy_request <> None
  /\ TripCreateSerializer_create demo_legacy_request demo_store
     = (inl AttributeError, demo_store).
Proof.
  split; [simpl; discriminate|].
  apply legacy_location_fields_raise. left. simpl. discriminate.
Defined.

Lemma explicit_references_example :
  exists t s',
    TripCreateSerializer_create demo_explicit_request demo_store = (inr t, s')
    /\ trip_driver t = 1%nat /\ drivers s' = drivers demo_store
    /\ trip_vehicle t = 1%nat /\ vehicles s' = vehicles demo_store
    /\ carriers s' = carriers demo_store.
Proof.
  eexists. eexists. split; [vm_compute; reflexivity|].
  destruct (explicit_references_take_precedence demo_store _
              demo_explicit_request _ ltac:(vm_compute; reflexivity))
    as [Hd Hv].
  destruct (Hd 1%nat eq_refl) as [H1 H2].
  destruct (Hv 1%nat eq_refl) as (H3 & H4 & H5).
  repeat split; assumption.
Defined.

Lemma known_address_example :
  TripViewSet_add_event 1 (demo_event_data (1 # 1) "12 Main St") demo_store
  = (inl ValidationError, demo_store)
  /\ TripEventCreateSerializer_create 1
       (demo_event_data (1 # 1) "12 Main St") demo_store
     = (inl ValidationError, demo_store)
  /\ TripEventCreateSerializer_create 1
       (demo_event_data (1 # 1) " 12 Main St  ") demo_store
     = (inl ValidationError, demo_store).
Proof.
  split; [vm_compute; reflexivity|]. split.
  - apply (known_address_is_rejected demo_store 1 _
             (demo_location_data "12 Main St") "12 Main St");
      [reflexivity | reflexivity |].
    exists (mkLocation 1 "12 Main St" (40 # 1) (-75 # 1) "" "" "USA" "").
    split; [simpl; auto | reflexivity].
  - apply (known_address_is_rejected demo_store 1 _
             (demo_location_data " 12 Main St  ") " 12 Main St  ");
      [reflexivity | reflexivity |].
    exists (mkLocation 1 "12 Main St" (40 # 1) (-75 # 1) "" "" "USA" "").
    split; [simpl; auto | reflexivity].
Defined.

Lemma invalid_initial_event_example :
  TripEventCreateSerializer_is_valid (demo_event_data (-1 # 1) "5 Oak Ave")
  = false
  /\ TripViewSet_create
       (demo_body [ demo_event_data (1 # 1) "4 Ash Ct";
                    demo_event_data (-1 # 1) "5 Oak Ave" ]) demo_store
     = (inl ValidationError, demo_store)
  /\ exists x,
       TripViewSet_create
         (demo_body [ demo_event_data (1 # 1) "4 Ash Ct";
                      demo_event_data (1 # 1) "12 Main St" ]) demo_store
       = (inl x, demo_store).
Proof.
  split; [vm_compute; reflexivity|]. split.
  - apply (proj2 (invalid_initial_event_fails_creation demo_store
                    (demo_body [ demo_event_data (1 # 1) "4 Ash Ct";
                                 demo_event_data (-1 # 1) "5 Oak Ave" ])
                    _ (demo_event_data (-1 # 1) "5 Oak Ave") eq_refl
                    ltac:(right; left; reflexivity)
                    ltac:(left; vm_compute; reflexivity)));
      vm_compute; reflexivity.
  - apply (proj1 (invalid_initial_event_fails_creation demo_store
                    (demo_body [ demo_event_data (1 # 1) "4 Ash Ct";
                                 demo_event_data (1 # 1) "12 Main St" ])
                    _ (demo_event_data (1 # 1) "12 Main St") eq_refl
                    ltac:(right; left; reflexivity)
                    ltac:(right; eexists; split;
                          [reflexivity | vm_compute; reflexivity]))).
Defined.

Lemma shorthand_request_example :
  TripViewSet_create (shorthand_body 20001) empty_store
  = (inl ValidationError, empty_store)
  /\ TripViewSet_create (shorthand_body 20001) demo_store
     = (inl ValidationError, demo_store).
Proof.
  split; apply shorthand_request_is_refused; left; reflexivity.
Defined.

Lemma five_totals_example :
  exists t s',
    TripViewSet_create demo_mileage_body demo_store = (inr t, s')
    /\ totals_agree s' t
    /\ exists t' s'',
         TripViewSet_update 1 demo_mileage_body demo_store = (inr t', s'')
         /\ same_five_totals demo_trip t'.
Proof.
  eexists. eexists. split; [vm_compute; reflexivity|].
  destruct five_totals_are_read_only as (_ & Hcreate & Hupdate).
  split.
  - refine (proj1 (Hcreate demo_store _ demo_mileage_body _ _
                     ltac:(vm_compute; reflexivity))).
    intros e Hin. simpl in Hin. destruct Hin as [<-|[]].
    eexists. vm_compute. reflexivity.
  - eexists. eexists. split; [vm_compute; reflexivity|].
    destruct (Hupdate demo_store _ 1%nat demo_mileage_body _
                ltac:(vm_compute; reflexivity))
      as (t & Hget & _ & Hsame & _).
    vm_compute in Hget. injection Hget as <-. exact Hsame.
Defined.

(** C4 as stated does not hold: the body's [total_mileage_today] is what
    the created trip stores, although the trip has no event at all, and an
    update overwrites the stored value in the same way. *)
Lemma total_mileage_today_is_client_set :
  rq_total_mileage_today demo_mileage_body = Some (77 # 1)
  /\ (exists t s',
        TripViewSet_create demo_mileage_body demo_store = (inr t, s')
        /\ Trip_events s' t = []
        /\ total_mileage_today t = 77 # 1)
  /\ (exists t s',
        TripViewSet_update 1 demo_mileage_body demo_store = (inr t, s')
        /\ total_mileage_today demo_trip = 0
        /\ total_mileage_today t = 77 # 1).
Proof.
  split; [reflexivity|]. split.
  - eexists. eexists. split; [vm_compute; reflexivity|].
    split; vm_compute; reflexivity.
  - eexists. eexists. split; [vm_compute; reflexivity|].
    split; vm_compute; reflexivity.
Qed.

(** * Further properties of the code *)

(** ** Sorted query sets *)

Section SortedQuerySets.

Context {A : Type} (le : A -> A -> bool).
Hypothesis le_total : forall a b, le a b = true \/ le b a = true.
Hypothesis le_trans :
  forall a b c, le a b = true -> le b c = true -> le a c = true.

Let R (a b : A) : Prop := le a b = true.

Lemma insert_by_sorted (x : A) (l : list A) :
  StronglySorted R l -> StronglySorted R (insert_by le x l).
Proof.
  induction 1 as [|y rest Hs IH Hall]; simpl.
  - repeat constructor.
  - destruct (le x y) eqn:Hxy.
    + constructor; [now constructor|].
      constructor; [exact Hxy|].
      rewrite Forall_forall in *. intros z Hz.
      apply le_trans with y; auto. apply Hall, Hz.
    + constructor; [exact IH|].
      rewrite Forall_forall in *. intros z Hz.
      apply In_insert_by in Hz as [->|Hz]; [|now apply Hall].
      destruct (le_total y x); [assumption|]. unfold R. congruence.
Qed.

Lemma sort_by_sorted (l : list A) : StronglySorted R (sort_by le l).
Proof.
  induction l as [|x rest IH]; simpl; [constructor|].
  now apply insert_by_sorted.
Qed.

End SortedQuerySets.

Lemma StronglySorted_filter {A} (R : A -> A -> Prop) (p : A -> bool)
    (l : list A) :
  StronglySorted R l -> StronglySorted R (filter p l).
Proof.
  induction 1 as [|x rest Hs IH Hall]; simpl; [constructor|].
  destruct (p x); auto. constructor; auto.
  rewrite Forall_forall in *. intros y Hy. apply filter_In in Hy as [Hy _].
  now apply Hall.
Qed.

Lemma StronglySorted_app_inv {A} (R : A -> A -> Prop) (l1 l2 : list A) :
  StronglySorted R (l1 ++ l2) ->
  StronglySorted R l1 /\ forall a b, In a l1 -> In b l2 -> R a b.
Proof.
  induction l1 as [|x rest IH]; simpl; intros H.
  - split; [constructor | contradiction].
  - apply StronglySorted_inv in H as [Hs Hall]. destruct (IH Hs) as [Hs1 Hr].
    rewrite Forall_forall in Hall. split.
    + constructor; auto. rewrite Forall_forall. intros y Hy.
      apply Hall, in_or_app. now left.
    + intros a b [<-|Ha] Hb; [|now apply Hr].
      apply Hall, in_or_app. now right.
Qed.

(** Taking the first [n] rows of a sorted query set: what is returned is
    sorted, and a row left out means [n] rows came back, all of them before
    it in the order. *)
Lemma firstn_sorted_top {A} (R : A -> A -> Prop) (n : nat) (l : list A) :
  StronglySorted R l ->
  StronglySorted R (firstn n l)
  /\ forall x, In x l -> ~ In x (firstn n l) ->
       List.length (firstn n l) = n /\ forall r, In r (firstn n l) -> R r x.
Proof.
  intros Hs. rewrite <- (firstn_skipn n l) in Hs.
  apply StronglySorted_app_inv in Hs as [Hs1 Hr]. split; [exact Hs1|].
  intros x Hin Hnot. rewrite <- (firstn_skipn n l) in Hin.
  apply in_app_or in Hin as [Hin|Hin]; [contradiction|]. split.
  - apply firstn_length_le.
    destruct (Nat.le_gt_cases n (List.length l)) as [Hle|Hgt]; auto.
    rewrite skipn_all2 in Hin by lia. contradiction.
  - intros r Hr'. now apply Hr.
Qed.

Lemma string_leb_trans (a b c : string) :
  (a <=? b)%string = true -> (b <=? c)%string = true ->
  (a <=? c)%string = true.
Proof.
  unfold String.leb. revert b c.
  induction a as [|x a IH]; intros [|y b] [|z c]; simpl; auto;
    try discriminate.
  unfold Ascii.compare.
  destruct (N.compare_spec (N_of_ascii x) (N_of_ascii y)) as [Hxy|Hxy|Hxy];
    destruct (N.compare_spec (N_of_ascii y) (N_of_ascii z)) as [Hyz|Hyz|Hyz];
    try discriminate; intros H1 H2.
  - rewrite Hxy, Hyz, N.compare_refl. now apply IH with b.
  - rewrite Hxy. now rewrite (proj2 (N.compare_lt_iff _ _) Hyz).
  - rewrite <- Hyz. now rewrite (proj2 (N.compare_lt_iff _ _) Hxy).
  - now rewrite (proj2 (N.compare_lt_iff _ _) (N.lt_trans _ _ _ Hxy Hyz)).
Qed.

(** ** Origin and the backward-compatible location fields *)

(** X1. [origin_location] is the location of an earliest event of the trip
    and is null for a trip without events. *)
Theorem Trip_origin_location_spec (s : Store) (t : Trip) :
  ((exists e, event_of s t e) ->
   exists first, event_of s t first
     /\ (forall e, event_of s t e ->
           (ev_timestamp first <= ev_timestamp e)%Z)
     /\ Trip_origin_location s t = Location_get s (ev_location first))
  /\ ((forall e, ~ event_of s t e) -> Trip_origin_location s t = None).
Proof.
  unfold Trip_origin_location.
  set (le := fun a b : TripEvent => (ev_timestamp a <=? ev_timestamp b)%Z).
  split.
  - intros (e0 & He0). apply Trip_events_In in He0.
    destruct (hd_error (sort_by le (Trip_events s t))) as [first|] eqn:Hhd.
    + exists first. split; [apply Trip_events_In; eapply sort_by_first_In; eauto|].
      split; [|reflexivity]. intros e He. apply Z.leb_le.
      apply (sort_by_first_least le) with (l := Trip_events s t) (x := first)
        (y := e); auto.
      * intros a b. unfold le. rewrite !Z.leb_le. lia.
      * intros a b c. unfold le. rewrite !Z.leb_le. lia.
      * now apply Trip_events_In.
    + apply sort_by_nil in Hhd. rewrite Hhd in He0. contradiction.
  - intros Hno. destruct (Trip_events s t) as [|e r] eqn:E; [reflexivity|].
    exfalso. apply (Hno e). apply Trip_events_In. rewrite E. now left.
Qed.

(** X2. In the serialized trip, [dropoff_location] is null whenever every
    event of the trip has one of the eleven declared types; with every event
    pointing at a stored location, [pickup_location] and [current_location]
    are null exactly for a trip without events. *)
Theorem legacy_location_fields_of_a_trip (s : Store) (t : Trip) :
  ((forall e, event_of s t e -> In (ev_event_type e) EVENT_TYPE_CHOICES) ->
   TripSerializer_get_dropoff_location s t = None)
  /\ (events_reference_locations s t ->
      (TripSerializer_get_pickup_location s t = None
       <-> forall e, ~ event_of s t e)
      /\ (TripSerializer_get_current_location s t = None
          <-> forall e, ~ event_of s t e)).
Proof.
  split.
  - intros Hall. unfold TripSerializer_get_dropoff_location.
    rewrite destination_none; [reflexivity|].
    intros e He. apply choices_not_boundary. now apply Hall.
  - intros Hrefs.
    assert (Hhead : forall le,
              (match hd_error (sort_by le (Trip_events s t)) with
               | Some e => option_map location_summary
                             (Location_get s (ev_location e))
               | None => None
               end = None) <-> forall e, ~ event_of s t e).
    { intros le. destruct (hd_error (sort_by le (Trip_events s t)))
        as [e|] eqn:Hhd.
      - apply sort_by_first_In, Trip_events_In in Hhd.
        destruct (Hrefs e Hhd) as (l & ->). simpl. split; [discriminate|].
        intros Hno. now destruct (Hno e).
      - apply sort_by_nil in Hhd. split; auto. intros _ e He.
        apply Trip_events_In in He. rewrite Hhd in He. contradiction. }
    split.
    + unfold TripSerializer_get_pickup_location, Trip_origin_location.
      rewrite <- (Hhead (fun a b => (ev_timestamp a <=? ev_timestamp b)%Z)).
      destruct (hd_error _); reflexivity.
    + unfold TripSerializer_get_current_location. apply Hhead.
Qed.

(** ** Ordered listings *)

Lemma by_date_desc_total (a b : Trip) :
  by_date_desc a b = true \/ by_date_desc b a = true.
Proof. unfold by_date_desc. rewrite !Z.leb_le. lia. Qed.

Lemma by_date_desc_trans (a b c : Trip) :
  by_date_desc a b = true -> by_date_desc b c = true ->
  by_date_desc a c = true.
Proof. unfold by_date_desc. rewrite !Z.leb_le. lia. Qed.

Lemma by_timestamp_desc_total (a b : TripEvent) :
  by_timestamp_desc a b = true \/ by_timestamp_desc b a = true.
Proof. unfold by_timestamp_desc. rewrite !Z.leb_le. lia. Qed.

Lemma by_timestamp_desc_trans (a b c : TripEvent) :
  by_timestamp_desc a b = true -> by_timestamp_desc b c = true ->
  by_timestamp_desc a c = true.
Proof. unfold by_timestamp_desc. rewrite !Z.leb_le. lia. Qed.

(** X3. The locations [search] returns come in address order, and they are
    the first ones in that order: a stored location that matches the query
    and is not returned means ten were returned, none after it. *)
Theorem LocationViewSet_search_first_ten (s : Store) (q : string) :
  q <> "" ->
  let found := LocationViewSet_search s (Some q) in
  StronglySorted
    (fun a b => (loc_address a <=? loc_address b)%string = true) found
  /\ forall l, In l (locations s) -> icontains (loc_address l) q = true ->
       ~ In l found ->
       List.length found = 10%nat
       /\ forall r, In r found ->
            (loc_address r <=? loc_address l)%string = true.
Proof.
  intros Hq. unfold LocationViewSet_search. cbn [opt_default].
  assert (Ht : truthy q = true).
  { unfold truthy. destruct (q =? "") eqn:E; auto.
    apply String.eqb_eq in E. contradiction. }
  rewrite Ht. cbv zeta.
  set (le := fun a b : Location => (loc_address a <=? loc_address b)%string).
  assert (Hs : StronglySorted (fun a b => le a b = true)
                 (filter (fun l => icontains (loc_address l) q)
                    (Location_objects_all s))).
  { apply StronglySorted_filter. unfold Location_objects_all.
    apply sort_by_sorted.
    - intros a b. apply String.leb_total.
    - intros a b c. apply string_leb_trans. }
  destruct (firstn_sorted_top _ 10 _ Hs) as [Hsorted Htop].
  split; [exact Hsorted|].
  intros l Hin Hm Hnot. apply Htop; auto.
  apply filter_In. split; auto.
  unfold Location_objects_all. now apply In_sort_by.
Qed.

(** X4. [recent] raises [OverflowError] exactly when [hours] (24 when the
    parameter is missing) is more than a [timedelta] holds, or leads from
    [now] to a date outside the years 1 to 9999.  Otherwise it returns at
    most 50 events, newest first, each stored, not older than [hours] hours
    and of the requested trip when one is given; an event that qualifies
    and is not returned means 50 were returned, none older than it. *)
Theorem TripEventViewSet_recent_spec (now : Z) (s : Store)
    (trip : option nat) (hours : option Z) :
  let h := opt_default 24%Z hours in
  let since := (now - h * 3600000000)%Z in
  let in_range :=
    (-999999999 <= h / 24 <= 999999999)%Z
    /\ (DATETIME_MIN <= since <= DATETIME_MAX)%Z in
  let qualifies e :=
    In e (events s) /\ (since <= ev_timestamp e)%Z
    /\ forall k, trip = Some k -> ev_trip e = k in
  match TripEventViewSet_recent now s trip hours with
  | inl x => x = OverflowError /\ ~ in_range
  | inr found =>
      in_range
      /\ (List.length found <= 50)%nat
      /\ StronglySorted (fun a b => (ev_timestamp b <= ev_timestamp a)%Z)
           found
      /\ (forall e, In e found -> qualifies e)
      /\ (forall e, qualifies e -> ~ In e found ->
            List.length found = 50%nat
            /\ forall r, In r found -> (ev_timestamp e <= ev_timestamp r)%Z)
  end.
Proof.
  cbv zeta. unfold TripEventViewSet_recent, timedelta_hours, datetime_sub.
  set (h := opt_default 24%Z hours).
  set (since := (now - h * 3600000000)%Z).
  destruct (Z.abs (h / 24) <=? 999999999)%Z eqn:Hd.
  2:{ split; [reflexivity|]. apply Z.leb_gt in Hd. lia. }
  apply Z.leb_le in Hd. cbv zeta. fold since.
  destruct ((DATETIME_MIN <=? since) && (since <=? DATETIME_MAX))%Z eqn:Hr.
  2:{ split; [reflexivity|]. apply andb_false_iff in Hr as [Hr|Hr];
        apply Z.leb_gt in Hr; lia. }
  apply andb_true_iff in Hr as [Hlo Hhi].
  apply Z.leb_le in Hlo. apply Z.leb_le in Hhi.
  split; [lia|].
  set (cands := filter (fun e => (since <=? ev_timestamp e)%Z)
                  (TripEventViewSet_get_queryset s trip)).
  assert (Hc : forall e, In e cands <->
                 In e (events s) /\ (since <= ev_timestamp e)%Z
                 /\ forall k, trip = Some k -> ev_trip e = k).
  { intros e. unfold cands, TripEventViewSet_get_queryset.
    rewrite filter_In, Z.leb_le. destruct trip as [k|].
    - rewrite filter_In, In_sort_by, Nat.eqb_eq. split.
      + intros [[Hin Hk] Hs]. repeat split; auto. intros k' Hk'. congruence.
      + intros (Hin & Hs & Hk). repeat split; auto.
    - rewrite In_sort_by. split.
      + intros [Hin Hs]. repeat split; auto. discriminate.
      + intros (Hin & Hs & _). auto. }
  assert (Hs : StronglySorted (fun a b => by_timestamp_desc a b = true)
                 (sort_by by_timestamp_desc cands)).
  { apply sort_by_sorted.
    - apply by_timestamp_desc_total.
    - apply by_timestamp_desc_trans. }
  destruct (firstn_sorted_top _ 50 _ Hs) as [Hsorted Htop].
  split; [apply firstn_le_length|]. split; [|split].
  - clear -Hsorted. induction Hsorted as [|x l Hl IH Hall]; constructor; auto.
    rewrite Forall_forall in *. intros y Hy. apply Z.leb_le.
    exact (Hall y Hy).
  - intros e He. apply In_firstn, In_sort_by in He. now apply Hc.
  - intros e He Hnot. destruct (Htop e) as [Hlen Hr]; auto.
    + apply In_sort_by. now apply Hc.
    + split; auto. intros r Hin. apply Z.leb_le. exact (Hr r Hin).
Qed.

(** X5. [GET /drivers/{id}/trips] and [GET /vehicles/{id}/trips] answer 404
    for an unknown id and otherwise list exactly the stored trips of that
    driver (as primary driver) or vehicle, newest date first, leaving the
    store as it was. *)
Theorem trips_of_driver_and_vehicle (s : Store) (pk : nat) :
  (Driver_get s pk = None -> DriverViewSet_trips pk s = (inl Http404, s))
  /\ (forall d, Driver_get s pk = Some d ->
        exists found, DriverViewSet_trips pk s = (inr found, s)
          /\ StronglySorted (fun a b => (trip_date b <= trip_date a)%Z) found
          /\ Permutation found
               (filter (fun t => (trip_driver t =? pk)%nat) (trips s)))
  /\ (Vehicle_get s pk = None -> VehicleViewSet_trips pk s = (inl Http404, s))
  /\ (forall v, Vehicle_get s pk = Some v ->
        exists found, VehicleViewSet_trips pk s = (inr found, s)
          /\ StronglySorted (fun a b => (trip_date b <= trip_date a)%Z) found
          /\ Permutation found
               (filter (fun t => (trip_vehicle t =? pk)%nat) (trips s))).
Proof.
  assert (Hperm : forall l : list Trip, Permutation (sort_by by_date_desc l) l).
  { assert (Hi : forall x (l : list Trip),
               Permutation (insert_by by_date_desc x l) (x :: l)).
    { intros x l. induction l as [|y r IH]; simpl; auto.
      destruct (by_date_desc x y); auto.
      rewrite IH. apply perm_swap. }
    induction l as [|x r IH]; simpl; auto. rewrite Hi. now constructor. }
  assert (Hsorted : forall l : list Trip,
            StronglySorted (fun a b => (trip_date b <= trip_date a)%Z)
              (sort_by by_date_desc l)).
  { intros l.
    pose proof (sort_by_sorted by_date_desc by_date_desc_total
                  by_date_desc_trans l) as H.
    induction H as [|x r Hr IH Hall]; constructor; auto.
    rewrite Forall_forall in *. intros y Hy. apply Z.leb_le.
    exact (Hall y Hy). }
  split; [|split; [|split]].
  - intros H. unfold DriverViewSet_trips. now rewrite H.
  - intros d H. unfold DriverViewSet_trips. rewrite H.
    apply find_some in H as [_ Hk]. apply Nat.eqb_eq in Hk. rewrite Hk.
    eexists. split; [reflexivity|]. split; [apply Hsorted | apply Hperm].
  - intros H. unfold VehicleViewSet_trips. now rewrite H.
  - intros v H. unfold VehicleViewSet_trips. rewrite H.
    apply find_some in H as [_ Hk]. apply Nat.eqb_eq in Hk. rewrite Hk.
    eexists. split; [reflexivity|]. split; [apply Hsorted | apply Hperm].
Qed.

(** ** Completing a trip and the active list *)

Lemma update_row_idempotent {A} (same : A -> bool) (r : A) (rows : list A) :
  same r = true ->
  update_row same r (update_row same r rows) = update_row same r rows.
Proof.
  intros Hr. induction rows as [|x rest IH]; simpl; auto.
  destruct (same x) eqn:Hx; simpl.
  - now rewrite Hr.
  - now rewrite Hx, IH.
Qed.

(** The row [complete] writes, and what a second [complete] finds. *)
Lemma TripViewSet_complete_row (s s' : Store) (pk : nat) (t' : Trip) :
  TripViewSet_complete pk s = (inr t', s') ->
  (exists t, Trip_get s pk = Some t
     /\ t' = mkTrip (trip_id t) (trip_date t) (trip_driver t)
               (trip_co_driver t) (trip_vehicle t)
               (trip_shipper_and_commodity t) (trip_cycle_rule t)
               (total_miles_driving t) (total_mileage_today t)
               (total_driving_hours t) (total_on_duty_hours t)
               (total_off_duty_hours t) (total_sleeper_hours t)
               (trip_remarks t) true)
  /\ Trip_get s' pk = Some t'
  /\ same_but_trips s s'
  /\ List.length (trips s') = List.length (trips s)
  /\ ~ In t' (TripViewSet_active s')
  /\ TripViewSet_complete pk s' = (inr t', s').
Proof.
  unfold TripViewSet_complete, bind, TripViewSet_get_object. intros H.
  destruct (Trip_get s pk) as [t|] eqn:Hget; [|discriminate].
  pose proof (Trip_get_key _ _ _ Hget) as [Hk _].
  pose proof (Trip_save_frame _ _ _ _ H) as Hfr.
  pose proof H as Hsave.
  eapply Trip_save_stored in H as [-> Hget']; eauto.
  split; [now exists t|]. split; [exact Hget'|]. split; [exact Hfr|].
  unfold Trip_save in Hsave. cbn [trip_id trip_is_completed] in Hsave.
  rewrite Hk in Hsave. cbn [opt_required] in Hsave.
  destruct (negb (Trip_fk_ok s _)) eqn:Hfk; [discriminate|].
  assert (Hex : existsb (fun r => is_key (trip_id r) pk) (trips s) = true).
  { rewrite existsb_find. unfold Trip_get, get_by in Hget. now rewrite Hget. }
  rewrite Hex in Hsave. injection Hsave as Hs'.
  split; [rewrite <- Hs'; simpl; apply length_update_row|].
  split.
  - unfold TripViewSet_active. intros Hin. apply filter_In in Hin as [_ Hc].
    discriminate.
  - rewrite Hget'. unfold Trip_save. cbn [trip_id trip_is_completed
      trip_date trip_driver trip_co_driver trip_vehicle
      trip_shipper_and_commodity trip_cycle_rule total_miles_driving
      total_mileage_today total_driving_hours total_on_duty_hours
      total_off_duty_hours total_sleeper_hours trip_remarks].
    rewrite Hk. cbn [opt_required].
    assert (Hfk' : forall x, Trip_fk_ok s' x = Trip_fk_ok s x).
    { intros x. unfold Trip_fk_ok.
      destruct Hfr as (_ & -> & _ & -> & _). reflexivity. }
    rewrite Hfk'. rewrite Hfk. cbn [negb].
    assert (Hex' : existsb (fun r => is_key (trip_id r) pk) (trips s') = true).
    { rewrite existsb_find. unfold Trip_get, get_by in Hget'.
      now rewrite Hget'. }
    rewrite Hex'. f_equal. rewrite <- Hs' at 2. rewrite <- Hs'. simpl.
    unfold set_trips. f_equal. apply update_row_idempotent.
    simpl. apply Nat.eqb_refl.
Qed.

(** X6. A successful [complete] rewrites the trip's row with
    [is_completed] set and with the key, the date, the references, the
    texts and the six totals as they were; no other table is touched and
    no row is added; the trip is then absent from the active list, and
    completing it again succeeds and leaves all of these as they are. *)
Theorem TripViewSet_complete_spec (s s' : Store) (pk : nat) (t' : Trip) :
  TripViewSet_complete pk s = (inr t', s') ->
  (exists t, Trip_get s pk = Some t /\ same_but_is_completed t t')
  /\ trip_is_completed t' = true
  /\ Trip_get s' pk = Some t'
  /\ same_but_trips s s'
  /\ List.length (trips s') = List.length (trips s)
  /\ ~ In t' (TripViewSet_active s')
  /\ exists t'' s'',
       TripViewSet_complete pk s' = (inr t'', s'')
       /\ trip_is_completed t'' = true /\ same_but_is_completed t' t''
       /\ Trip_get s'' pk = Some t''
       /\ List.length (trips s'') = List.length (trips s).
Proof.
  intros H. apply TripViewSet_complete_row in H
    as ((t & Hget & Ht') & Hget' & Hfr & Hlen & Hact & Hagain).
  assert (Hc : trip_is_completed t' = true) by now rewrite Ht'.
  split.
  { exists t. split; [exact Hget|]. rewrite Ht'.
    unfold same_but_is_completed. simpl. tauto. }
  split; [exact Hc|]. split; [exact Hget'|]. split; [exact Hfr|].
  split; [exact Hlen|]. split; [exact Hact|].
  exists t', s'. split; [exact Hagain|]. split; [exact Hc|].
  split; [unfold same_but_is_completed; tauto|]. auto.
Qed.

(** X7. The active list holds exactly the stored trips that are not
    completed, newest date first. *)
Theorem TripViewSet_active_spec (s : Store) :
  (forall t, In t (TripViewSet_active s)
             <-> In t (trips s) /\ trip_is_completed t = false)
  /\ StronglySorted (fun a b => (trip_date b <= trip_date a)%Z)
       (TripViewSet_active s).
Proof.
  unfold TripViewSet_active, Trip_objects_all. split.
  - intros t. rewrite filter_In, In_sort_by, <- in_rev, negb_true_iff.
    tauto.
  - apply StronglySorted_filter.
    pose proof (sort_by_sorted by_date_desc by_date_desc_total
                  by_date_desc_trans (rev (trips s))) as H.
    induction H as [|x r Hr IH Hall]; constructor; auto.
    rewrite Forall_forall in *. intros y Hy. apply Z.leb_le.
    exact (Hall y Hy).
Qed.

(** ** Aggregates over trips *)

Lemma Sum_spec (xs : list Q) :
  match Sum xs with
  | Some v => xs <> [] /\ v == fold_right Qplus 0 xs
  | None => xs = []
  end.
Proof.
  destruct xs as [|x rest]; simpl; auto.
  split; [discriminate|]. apply fold_left_Qplus.
Qed.

Lemma filter_filter {A} (p q : A -> bool) (l : list A) :
  filter q (filter p l) = filter (fun x => p x && q x) l.
Proof.
  induction l as [|x rest IH]; simpl; auto.
  destruct (p x); simpl; [destruct (q x)|]; now rewrite IH.
Qed.

(** X8. [hours_summary] answers 404 for an unknown driver.  Otherwise
    [trip_count] is the number of the driver's trips in the date range; with
    no such trip the three sums are null, not zero; with at least one they
    are the sums of the stored totals of those trips. *)
Theorem DriverViewSet_hours_summary_spec (s : Store) (pk : nat)
    (date_from date_to : option Z) :
  (Driver_get s pk = None ->
   DriverViewSet_hours_summary pk date_from date_to s = (inl Http404, s))
  /\ (forall d, Driver_get s pk = Some d ->
        let sel := trips_in_summary s pk date_from date_to in
        exists r,
          DriverViewSet_hours_summary pk date_from date_to s = (inr r, s)
          /\ hs_trip_count r = List.length sel
          /\ (sel = [] ->
                hs_total_driving_hours r = None
                /\ hs_total_on_duty_hours r = None
                /\ hs_total_miles r = None)
          /\ (sel <> [] ->
                exists dh oh mi,
                  hs_total_driving_hours r = Some dh
                  /\ hs_total_on_duty_hours r = Some oh
                  /\ hs_total_miles r = Some mi
                  /\ dh == fold_right Qplus 0 (map total_driving_hours sel)
                  /\ oh == fold_right Qplus 0 (map total_on_duty_hours sel)
                  /\ mi == fold_right Qplus 0 (map total_miles_driving sel))).
Proof.
  split.
  - intros H. unfold DriverViewSet_hours_summary. now rewrite H.
  - intros d H. cbv zeta. unfold DriverViewSet_hours_summary. rewrite H.
    apply find_some in H as [_ Hk]. apply Nat.eqb_eq in Hk. rewrite Hk.
    rewrite filter_filter. fold (trips_in_summary s pk date_from date_to).
    eexists. split; [reflexivity|]. cbn [hs_trip_count hs_total_driving_hours
      hs_total_on_duty_hours hs_total_miles].
    split; [reflexivity|]. split.
    + intros ->. simpl. auto.
    + intros Hne.
      destruct (trips_in_summary s pk date_from date_to) as [|x rest];
        [contradiction|].
      eexists. eexists. eexists.
      repeat (split; [reflexivity|]).
      repeat split; apply (fold_left_Qplus _ _).
Qed.

Lemma Avg_spec (xs : list Q) :
  match Avg xs, Sum xs with
  | Some a, Some v => a * inject_Z (Z.of_nat (List.length xs)) == v
  | None, None => xs = []
  | _, _ => False
  end.
Proof.
  unfold Avg. pose proof (Sum_spec xs) as H.
  destruct (Sum xs) as [v|]; auto. destruct H as [Hne _].
  rewrite Qmult_comm. apply Qmult_div_r.
  destruct xs as [|x rest]; [contradiction|].
  unfold Qeq. simpl. lia.
Qed.

(** X9. [statistics] over the trips of the date range: [total_trips] counts
    them and [completed_trips] can not exceed it; with no trip in range both
    sums and both averages are null; otherwise each sum is the sum of the
    stored totals and each average times [total_trips] gives its sum. *)
Theorem TripViewSet_statistics_spec (s : Store)
    (date_from date_to : option Z) :
  let sel := filter (in_date_range date_from date_to) (trips s) in
  let st := TripViewSet_statistics s date_from date_to in
  let n := inject_Z (Z.of_nat (st_total_trips st)) in
  st_total_trips st = List.length sel
  /\ (st_completed_trips st <= st_total_trips st)%nat
  /\ (sel = [] ->
        st_total_miles st = None /\ st_total_driving_hours_sum st = None
        /\ st_avg_miles_per_trip st = None /\ st_avg_driving_hours st = None)
  /\ (sel <> [] ->
        exists mi dh ami adh,
          st_total_miles st = Some mi
          /\ st_total_driving_hours_sum st = Some dh
          /\ st_avg_miles_per_trip st = Some ami
          /\ st_avg_driving_hours st = Some adh
          /\ mi == fold_right Qplus 0 (map total_miles_driving sel)
          /\ dh == fold_right Qplus 0 (map total_driving_hours sel)
          /\ ami * n == mi /\ adh * n == dh).
Proof.
  cbv zeta. unfold TripViewSet_statistics.
  set (sel := filter (in_date_range date_from date_to) (trips s)).
  cbn [st_total_trips st_completed_trips st_total_miles
    st_total_driving_hours_sum st_avg_miles_per_trip st_avg_driving_hours].
  split; [reflexivity|]. split; [apply filter_length_le|]. split.
  - intros ->. simpl. auto.
  - intros Hne.
    pose proof (Sum_spec (map total_miles_driving sel)) as Hm.
    pose proof (Sum_spec (map total_driving_hours sel)) as Hd.
    pose proof (Avg_spec (map total_miles_driving sel)) as Ham.
    pose proof (Avg_spec (map total_driving_hours sel)) as Had.
    rewrite !length_map in Ham, Had.
    destruct (Sum (map total_miles_driving sel)) as [mi|];
      [|destruct sel; [contradiction|discriminate]].
    destruct (Sum (map total_driving_hours sel)) as [dh|];
      [|destruct sel; [contradiction|discriminate]].
    destruct (Avg (map total_miles_driving sel)) as [ami|]; [|contradiction].
    destruct (Avg (map total_driving_hours sel)) as [adh|]; [|contradiction].
    exists mi, dh, ami, adh. destruct Hm as [_ Hm]. destruct Hd as [_ Hd].
    repeat (split; [reflexivity|]). auto.
Qed.

(** ** Adding an event to a trip *)

(** X10. A successful [add_event] appends exactly one event, attached to
    the trip and to a Location that it also appends, under the trimmed
    address of the request, which was not stored before; the trip's row is
    rewritten in place with totals equal to the sums over its events;
    drivers, carriers and vehicles are left alone. *)
Theorem TripViewSet_add_event_effect (s s' : Store) (pk : nat)
    (data : EventData) (e' : TripEvent) :
  TripViewSet_add_event pk data s = (inr e', s') ->
  exists l t',
    event_address data = Some (loc_address l)
    /\ ~ In (loc_address l) (map loc_address (locations s))
    /\ locations s' = locations s ++ [l]
    /\ events s' = events s ++ [e']
    /\ ev_trip e' = pk /\ ev_location e' = loc_id l
    /\ Trip_get s' pk = Some t' /\ totals_agree s' t'
    /\ List.length (trips s') = List.length (trips s)
    /\ drivers s' = drivers s /\ carriers s' = carriers s
    /\ vehicles s' = vehicles s.
Proof.
  unfold TripViewSet_add_event, bind, TripViewSet_get_object. intros H.
  destruct (Trip_get s pk) as [t|]; [|discriminate].
  destruct (TripEventCreateSerializer_is_valid data); [|discriminate].
  apply TripEventCreateSerializer_create_effect in H
    as (ld & a & l & t0 & t' & Hld & _ & Ha & Hl & Hnew & _ & _ & Htrip
        & Hloc & _ & _ & _ & Hget' & _ & Hagree & ->).
  cbn [ed_location_data TripEventCreateSerializer_validated_data] in Hld.
  exists l, t'. unfold event_address. rewrite Hld, Ha, Hl. simpl.
  repeat (split; [first [assumption | reflexivity]|]).
  split; [apply length_update_row|]. auto.
Qed.

Lemma TripEvent_save_succeeds (e : TripEvent) (s : Store) :
  TripEvent_fk_ok s e = true ->
  (forall t, Trip_get s (ev_trip e) = Some t -> Trip_fk_ok s t = true) ->
  exists e' s', TripEvent_save e s = (inr e', s').
Proof.
  intros Hfk Htrip. unfold TripEvent_save, bind, get_store, ret.
  assert (Hsup : exists e1 evs,
            TripEvent_super_save e s = (inr e1, set_events s evs)
            /\ ev_trip e1 = ev_trip e).
  { unfold TripEvent_super_save. rewrite Hfk. cbn [negb].
    destruct (opt_required _ (ev_id e)); eexists; eexists;
      (split; [reflexivity|reflexivity]). }
  destruct Hsup as (e1 & evs & -> & ->).
  apply andb_true_iff in Hfk as [Hsome _].
  change (Trip_get (set_events s evs) (ev_trip e))
    with (Trip_get s (ev_trip e)).
  destruct (Trip_get s (ev_trip e)) as [trip|] eqn:Hget; [|discriminate].
  pose proof (Trip_get_key _ _ _ Hget) as [Hk _].
  unfold Trip_calculate_totals, Trip_save. cbn [trip_id]. rewrite Hk.
  cbn [opt_required].
  match goal with
  | |- context [negb (Trip_fk_ok ?S ?T)] =>
      change (Trip_fk_ok S T) with (Trip_fk_ok s trip)
  end.
  rewrite (Htrip trip eq_refl). cbn [negb].
  assert (Hex : existsb (fun r => is_key (trip_id r) (ev_trip e))
                  (trips (set_events s evs)) = true).
  { rewrite existsb_find. unfold Trip_get, get_by in Hget. cbn [trips set_events].
    now rewrite Hget. }
  rewrite Hex. eexists. eexists. reflexivity.
Qed.

(** X11. [add_event] answers 404 for an unknown trip and a validation error
    for event data or location data the serializers refuse, the store
    untouched in each case; it succeeds exactly when the trip is stored
    (with driver and vehicle on record), the event data is valid and the
    location data is valid, which includes a trimmed address that is
    neither blank nor stored yet. *)
Theorem TripViewSet_add_event_outcome (s : Store) (pk : nat)
    (data : EventData) :
  (Trip_get s pk = None ->
   TripViewSet_add_event pk data s = (inl Http404, s))
  /\ (forall t, Trip_get s pk = Some t ->
        TripEventCreateSerializer_is_valid data = false ->
        TripViewSet_add_event pk data s = (inl ValidationError, s))
  /\ (forall t ld, Trip_get s pk = Some t ->
        ed_location_data data = Some ld ->
        LocationSerializer_is_valid s ld = false ->
        TripViewSet_add_event pk data s = (inl ValidationError, s))
  /\ ((exists e' s', TripViewSet_add_event pk data s = (inr e', s'))
      <-> exists t ld a,
            Trip_get s pk = Some t /\ trip_references_ok s t
            /\ TripEventCreateSerializer_is_valid data = true
            /\ ed_location_data data = Some ld
            /\ LocationSerializer_is_valid s ld = true
            /\ ld_address ld = Some a /\ strip a <> ""
            /\ ~ In (strip a) (map loc_address (locations s))).
Proof.
  unfold TripViewSet_add_event, bind, TripViewSet_get_object.
  split; [|split; [|split]].
  - now intros ->.
  - intros t -> ->. reflexivity.
  - intros t ld -> Hld Hv.
    destruct (TripEventCreateSerializer_is_valid data); [|reflexivity].
    now apply invalid_location_raises with (ld := ld).
  - split.
    + intros (e' & s' & H).
      destruct (Trip_get s pk) as [t|] eqn:Hget; [|discriminate].
      destruct (TripEventCreateSerializer_is_valid data); [|discriminate].
      apply TripEventCreateSerializer_create_effect in H
        as (ld & a & l & t0 & t' & Hld & Hv & Ha & _ & Hnew & Hget0 & Hfk & _).
      exists t, ld, a. rewrite Hget0 in Hget. injection Hget as <-.
      cbn [ed_location_data TripEventCreateSerializer_validated_data] in Hld.
      repeat (split; [first [assumption | reflexivity]|]).
      split; [|exact Hnew].
      unfold LocationSerializer_is_valid in Hv. rewrite Ha in Hv.
      cbn [opt_required] in Hv. unfold CharField_is_valid in Hv.
      intros Hblank. rewrite Hblank in Hv. discriminate.
    + intros (t & ld & a & Hget & Hfk & Hvalid & Hld & Hv & _).
      rewrite Hget, Hvalid.
      unfold TripEventCreateSerializer_create, bind, get_store.
      cbn [ed_location_data ed_timestamp ed_event_type ed_duration
             ed_miles_driven ed_notes TripEventCreateSerializer_validated_data].
      rewrite Hld, Hv.
      destruct (valid_location_is_created _ _ Hv)
        as (l & a' & _ & _ & Hid & _ & ->).
      unfold TripEvent_objects_create.
      cbn [ed_location_data ed_timestamp ed_event_type ed_duration
             ed_miles_driven ed_notes TripEventCreateSerializer_validated_data].
      unfold TripEventCreateSerializer_is_valid in Hvalid.
      destruct (ed_timestamp data) as [ts|];
        [|rewrite andb_false_r in Hvalid; discriminate].
      apply TripEvent_save_succeeds.
      * unfold TripEvent_fk_ok. cbn [ev_trip ev_location].
        change (Trip_get (set_locations s (locations s ++ [l])) pk)
          with (Trip_get s pk).
        rewrite Hget. cbn [is_some andb]. unfold has_pk.
        cbn [locations set_locations].
        apply existsb_app_last. apply Nat.eqb_refl.
      * cbn [ev_trip]. intros t1 Ht1.
        change (Trip_get (set_locations s (locations s ++ [l])) pk)
          with (Trip_get s pk) in Ht1.
        rewrite Hget in Ht1. injection Ht1 as <-. exact Hfk.
Qed.

(** X12. After a successful [add_event] the trip's [events_count] has grown
    by one and its [cycle_hours_used] is the summed duration of its driving
    and on-duty events. *)
Theorem add_event_count_and_cycle_hours (s s' : Store) (pk : nat)
    (data : EventData) (e' : TripEvent) (t0 t' : Trip) :
  TripViewSet_add_event pk data s = (inr e', s') ->
  Trip_get s pk = Some t0 -> Trip_get s' pk = Some t' ->
  TripSerializer_get_events_count s' t'
  = S (TripSerializer_get_events_count s t0)
  /\ Trip_cycle_hours_used t'
     == sum_where ev_duration "driving" (Trip_events s' t')
        + sum_where ev_duration "on_duty" (Trip_events s' t').
Proof.
  unfold TripViewSet_add_event, bind, TripViewSet_get_object.
  intros H Hget0 Hget'. rewrite Hget0 in H.
  destruct (TripEventCreateSerializer_is_valid data); [|discriminate].
  apply TripEventCreateSerializer_create_effect in H
    as (ld & a & l & t1 & t2 & _ & _ & _ & _ & _ & _ & _ & Htrip
        & _ & _ & _ & _ & Hget2 & _ & Hagree & Hs').
  rewrite Hget2 in Hget'. injection Hget' as ->.
  pose proof (Trip_get_key _ _ _ Hget0) as [Hk0 _].
  pose proof (Trip_get_key _ _ _ Hget2) as [Hk' _].
  split.
  - unfold TripSerializer_get_events_count, Trip_events.
    rewrite Hk0, Hk', Hs'. cbn [events]. rewrite filter_app, length_app.
    simpl. rewrite Htrip, Nat.eqb_refl. simpl. lia.
  - unfold Trip_cycle_hours_used.
    destruct Hagree as (Hd & Ho & _). now rewrite Hd, Ho.
Qed.

(** ** More on trip creation *)

(** X13. Every trip the creation endpoint creates refers to the driver and
    the vehicle the request names by key, both on record; the request adds
    no Driver, no Carrier and no Vehicle, whatever it carries in
    [driver_initial], [carrier_name] and [truck_number]. *)
Theorem TripViewSet_create_references (s s' : Store) (body : TripRequestBody)
    (t : Trip) :
  TripViewSet_create body s = (inr t, s') ->
  exists d v,
    rq_driver body = Some d /\ rq_vehicle body = Some v
    /\ has_pk drv_id d (drivers s) = true
    /\ has_pk veh_id v (vehicles s) = true
    /\ trip_driver t = d /\ trip_vehicle t = v
    /\ drivers s' = drivers s /\ carriers s' = carriers s
    /\ vehicles s' = vehicles s.
Proof.
  intros H. apply TripViewSet_create_inv in H as [Hvalid H].
  apply TripCreateSerializer_is_valid_inv in Hvalid
    as (date & d & v & evs & _ & Hd & Hdk & Hv & Hvk & _).
  exists d, v.
  repeat (split; [first [assumption | reflexivity]|]).
  apply TripCreateSerializer_create_inv in H
    as (_ & d' & s1 & v' & s2 & t0 & s3 & pk & Hrd & Hrv & Ht & Hpk & Hs & _
        & Hsame & _).
  rewrite (resolve_driver_explicit _ d) in Hrd by exact Hd.
  injection Hrd as <- <-.
  rewrite (resolve_vehicle_explicit _ v) in Hrv by exact Hv.
  injection Hrv as <- <-.
  apply Trip_objects_create_spec in Ht
    as (date' & dk & vk & pk' & _ & Hdk' & Hvk' & Ht0 & _ & Hs3 & Hget3).
  injection Hdk' as <-. injection Hvk' as <-.
  assert (pk' = pk) as -> by (rewrite Ht0 in Hpk; simpl in Hpk; congruence).
  apply save_events_spec with (t0 := t0) in Hs as (Hds & Hcs & Hvs & _);
    [|exact Hget3].
  destruct Hsame as (_ & _ & Hdrv & _ & Hveh & _).
  rewrite Ht0 in Hdrv, Hveh. simpl in Hdrv, Hveh.
  subst s3. simpl in Hds, Hcs, Hvs. auto.
Qed.

Lemma TripCreateSerializer_create_appends (s s' : Store)
    (vd : TripCreateData) (t : Trip) :
  TripCreateSerializer_create vd s = (inr t, s') ->
  let saved := accepted (opt_default [] (vd_initial_events vd)) in
  exists new_locs new_events,
    trips s' = trips s ++ [t]
    /\ locations s' = locations s ++ new_locs
    /\ events s' = events s ++ new_events
    /\ map (fun l => Some (loc_address l)) new_locs = map event_address saved
    /\ List.length new_events = List.length saved
    /\ (forall e, In e new_events -> trip_id t = Some (ev_trip e))
    /\ NoDup (map loc_address new_locs)
    /\ (forall l, In l new_locs ->
          ~ In (loc_address l) (map loc_address (locations s))).
Proof.
  intros H. cbv zeta. apply TripCreateSerializer_create_inv in H
    as (_ & d & s1 & v & s2 & t0 & s3 & pk & Hrd & Hrv & Ht & Hpk & Hs
        & Hget & _).
  apply resolve_driver_frame in Hrd as (ds & ->).
  apply resolve_vehicle_frame in Hrv as (Hl2 & _ & Ht2 & He2).
  cbn [locations trips events set_drivers] in Hl2, Ht2, He2.
  apply Trip_objects_create_spec in Ht
    as (date & dk & vk & pk' & _ & _ & _ & Ht0 & Hfresh & Hs3 & _).
  assert (pk' = pk) as -> by (rewrite Ht0 in Hpk; simpl in Hpk; congruence).
  apply save_events_effect with (l0 := trips s) (t0 := t0) in Hs
    as (nl & ne & tf & Hs' & Hkt & Hmap & Hlen & Hev & Hnd & Hold).
  - rewrite Hs3 in Hs'. cbn [locations events set_trips] in Hs'.
    rewrite Hl2, He2 in Hs'.
    assert (tf = t) as ->.
    { rewrite Hs' in Hget. unfold Trip_get, get_by in Hget. cbn [trips] in Hget.
      rewrite find_app_none in Hget.
      - simpl in Hget. rewrite Hkt in Hget. simpl in Hget.
        rewrite Nat.eqb_refl in Hget. congruence.
      - rewrite Hfresh, Ht2. apply fresh_key_unused. }
    exists nl, ne. rewrite Hs'. cbn [trips locations events].
    repeat (split; [first [assumption | reflexivity]|]).
    split; [intros e He; rewrite (Hev e He); exact Hkt|].
    split; [exact Hnd|].
    intros l Hin. specialize (Hold l Hin). rewrite Hs3 in Hold.
    cbn [locations set_trips] in Hold. now rewrite Hl2 in Hold.
  - rewrite Hs3. cbn [trips set_trips]. now rewrite Ht2.
  - rewrite Hfresh, Ht2. apply fresh_key_unused.
  - exact Hpk.
Qed.

Lemma accepted_validated (evs : list EventData) :
  forallb TripEventCreateSerializer_is_valid evs = true ->
  accepted (map TripEventCreateSerializer_validated_data evs)
  = map TripEventCreateSerializer_validated_data evs.
Proof.
  unfold accepted. induction evs as [|e rest IH]; simpl; auto.
  intros H. apply andb_true_iff in H as [He Hrest].
  rewrite TripEventCreateSerializer_is_valid_again, He. now rewrite IH.
Qed.

(** X15. A successful creation request appends the new trip to [trips] and
    leaves every other trip row as it was.  It appends one event and one
    Location per initial event of the request, in order, each event
    attached to the new trip; the trimmed addresses of those events were
    not stored before and are pairwise distinct. *)
Theorem TripViewSet_create_effect (s s' : Store) (body : TripRequestBody)
    (t : Trip) :
  TripViewSet_create body s = (inr t, s') ->
  exists initial_events new_locs new_events,
    rq_initial_events body = Some initial_events
    /\ trips s' = trips s ++ [t]
    /\ locations s' = locations s ++ new_locs
    /\ events s' = events s ++ new_events
    /\ map (fun l => Some (loc_address l)) new_locs
       = map event_address initial_events
    /\ List.length new_events = List.length initial_events
    /\ (forall e, In e new_events -> trip_id t = Some (ev_trip e))
    /\ NoDup (map loc_address new_locs)
    /\ (forall l, In l new_locs ->
          ~ In (loc_address l) (map loc_address (locations s))).
Proof.
  intros H. apply TripViewSet_create_inv in H as [Hvalid H].
  apply TripCreateSerializer_is_valid_inv in Hvalid
    as (date & d & v & evs & _ & _ & _ & _ & _ & Hevs & Hall).
  apply TripCreateSerializer_create_appends in H. cbv zeta in H.
  destruct H as (nl & ne & Ht & Hl & He & Hmap & Hlen & Htrip & Hnd & Hnew).
  cbn [vd_initial_events TripCreateSerializer_validated_data] in Hmap, Hlen.
  rewrite Hevs in Hmap, Hlen. cbn [option_map opt_default] in Hmap, Hlen.
  rewrite accepted_validated in Hmap, Hlen by exact Hall.
  rewrite map_map in Hmap. rewrite length_map in Hlen.
  exists evs, nl, ne.
  repeat (split; [first [assumption | reflexivity]|]). exact Hnew.
Qed.

(** ** Creating an event outside a trip *)

(** X16. [POST /trip-events] never creates an event: every request ends in
    an exception with [events], [trips], [drivers], [carriers] and
    [vehicles] as they were.  Data the serializers accept ends in
    [IntegrityError]; the Location of the request, stored on the way, stays
    unless the request runs in a transaction of its own. *)
Theorem TripEventViewSet_create_never_succeeds (atomic_requests : bool)
    (s : Store) (data : EventData) :
  exists x s',
    TripEventViewSet_create atomic_requests data s = (inl x, s')
    /\ events s' = events s /\ trips s' = trips s
    /\ drivers s' = drivers s /\ carriers s' = carriers s
    /\ vehicles s' = vehicles s
    /\ (atomic_requests = true -> s' = s)
    /\ (forall ld, TripEventCreateSerializer_is_valid data = true ->
          ed_location_data data = Some ld ->
          LocationSerializer_is_valid s ld = true ->
          x = IntegrityError
          /\ (atomic_requests = false ->
              exists l, option_map strip (ld_address ld)
                        = Some (loc_address l)
                   /\ locations s' = locations s ++ [l])).
Proof.
  assert (Hview : exists x s',
    TripEventViewSet_create false data s = (inl x, s')
    /\ events s' = events s /\ trips s' = trips s
    /\ drivers s' = drivers s /\ carriers s' = carriers s
    /\ vehicles s' = vehicles s
    /\ (forall ld, TripEventCreateSerializer_is_valid data = true ->
          ed_location_data data = Some ld ->
          LocationSerializer_is_valid s ld = true ->
          x = IntegrityError
          /\ exists l, option_map strip (ld_address ld) = Some (loc_address l)
               /\ locations s' = locations s ++ [l])).
  { unfold TripEventViewSet_create, bind, get_store, raise.
    destruct (TripEventCreateSerializer_is_valid data);
      [|exists ValidationError, s; repeat split; auto; discriminate].
    destruct (ed_location_data data) as [ld|];
      [|exists KeyError, s; repeat split; auto; discriminate].
    destruct (LocationSerializer_is_valid s ld) eqn:Hv.
    - destruct (valid_location_is_created _ _ Hv)
        as (l & a & Ha & Hl & _ & _ & ->).
      eexists. eexists. split; [reflexivity|].
      do 5 (split; [reflexivity|]).
      intros ld' _ Hld _. injection Hld as <-.
      split; [reflexivity|]. exists l.
      split; [rewrite Ha, Hl; reflexivity | reflexivity].
    - exists ValidationError, s. do 6 (split; [reflexivity|]).
      intros ld' _ Hld Hv'. injection Hld as <-. congruence. }
  destruct Hview as (x & s1 & Hrun & He & Ht & Hd & Hc & Hv & Hok).
  destruct atomic_requests.
  - exists x, s. unfold TripEventViewSet_create in *. unfold atomic.
    cbv zeta in *. rewrite Hrun.
    do 6 (split; [reflexivity|]). split; [reflexivity|].
    intros ld H1 H2 H3. split; [apply (Hok ld H1 H2 H3) | discriminate].
  - exists x, s1. repeat (split; [assumption|]).
    split; [discriminate|].
    intros ld H1 H2 H3. destruct (Hok ld H1 H2 H3) as [Hx Hl]. auto.
Qed.

(** ** Further worked examples *)

Lemma search_first_ten_example :
  StronglySorted
    (fun a b => (loc_address a <=? loc_address b)%string = true)
    (LocationViewSet_search demo_store (Some "main")).
Proof.
  exact (proj1 (LocationViewSet_search_first_ten demo_store "main"
                  ltac:(discriminate))).
Defined.

Lemma complete_example :
  exists t' s',
    TripViewSet_complete 1 demo_store = (inr t', s')
    /\ Trip_get s' 1 = Some t'
    /\ trip_is_completed t' = true
    /\ same_but_is_completed demo_trip t'
    /\ ~ In t' (TripViewSet_active s').
Proof.
  eexists. eexists. split; [vm_compute; reflexivity|].
  destruct (TripViewSet_complete_spec demo_store _ 1%nat _
              ltac:(vm_compute; reflexivity))
    as ((t & Ht & Hsame) & Hc & Hget & _ & _ & Hact & _).
  vm_compute in Ht. injection Ht as <-.
  repeat split; try assumption; apply Hsame.
Defined.

Lemma add_event_example :
  exists e' s' l,
    TripViewSet_add_event 1 (demo_event_data (1 # 1) "  9 New Rd ") demo_store
    = (inr e', s')
    /\ events s' = events demo_store ++ [e']
    /\ locations s' = locations demo_store ++ [l]
    /\ loc_address l = "9 New Rd".
Proof.
  eexists. eexists.
  destruct (TripViewSet_add_event_effect demo_store _ 1%nat
              (demo_event_data (1 # 1) "  9 New Rd ") _
              ltac:(vm_compute; reflexivity))
    as (l & t' & Ha & _ & Hl & He & _).
  exists l. split; [vm_compute; reflexivity|].
  split; [exact He|]. split; [exact Hl|].
  change (Some "9 New Rd" = Some (loc_address l)) in Ha. congruence.
Defined.

Lemma add_event_count_example :
  exists e' s' t',
    TripViewSet_add_event 1 (demo_event_data (1 # 1) "9 New Rd") demo_store
    = (inr e', s')
    /\ Trip_get s' 1 = Some t'
    /\ TripSerializer_get_events_count s' t' = 2%nat.
Proof.
  eexists. eexists. eexists. split; [vm_compute; reflexivity|].
  split; [vm_compute; reflexivity|].
  exact (proj1 (add_event_count_and_cycle_hours demo_store _ 1%nat
                  (demo_event_data (1 # 1) "9 New Rd") _ demo_trip _
                  ltac:(vm_compute; reflexivity)
                  ltac:(vm_compute; reflexivity)
                  ltac:(vm_compute; reflexivity))).
Defined.

Lemma create_effect_example :
  exists t s' new_locs new_events,
    TripViewSet_create demo_two_events_body demo_store = (inr t, s')
    /\ trips s' = trips demo_store ++ [t]
    /\ locations s' = locations demo_store ++ new_locs
    /\ events s' = events demo_store ++ new_events
    /\ List.length new_events = 2%nat
    /\ map (fun l => Some (loc_address l)) new_locs
       = [Some "5 Oak Ave"; Some "7 Pine Rd"].
Proof.
  eexists. eexists.
  destruct (TripViewSet_create_effect demo_store _ demo_two_events_body _
              ltac:(vm_compute; reflexivity))
    as (evs & nl & ne & Hevs & Ht & Hl & He & Hmap & Hlen & _).
  vm_compute in Hevs. injection Hevs as <-.
  exists nl, ne. split; [vm_compute; reflexivity|].
  repeat (split; [assumption|]). exact Hmap.
Defined.

Lemma create_references_example :
  exists t s',
    TripViewSet_create demo_both_body demo_store = (inr t, s')
    /\ trip_driver t = 1%nat /\ trip_vehicle t = 1%nat
    /\ drivers s' = drivers demo_store /\ carriers s' = carriers demo_store
    /\ vehicles s' = vehicles demo_store.
Proof.
  eexists. eexists. split; [vm_compute; reflexivity|].
  destruct (TripViewSet_create_references demo_store _ demo_both_body _
              ltac:(vm_compute; reflexivity))
    as (d & v & Hd & Hv & _ & _ & Htd & Htv & Hds & Hcs & Hvs).
  change (Some 1%nat = Some d) in Hd. change (Some 1%nat = Some v) in Hv.
  injection Hd as <-. injection Hv as <-.
  repeat split; assumption.
Defined.

Lemma recent_example :
  TripEventViewSet_recent 3600001000 demo_store_boundary (Some 1%nat)
    (Some 1%Z)
  = inr [ mkTripEvent (Some 2%nat) 1 1 "driving_end" 2000 0 0 "";
          mkTripEvent (Some 1%nat) 1 1 "driving" 1000 (2 # 1) (100 # 1) "" ]
  /\ TripEventViewSet_recent 3600001000 demo_store_boundary None
       (Some 24000000000%Z)
     = inl OverflowError
  /\ TripEventViewSet_recent 3600001000 demo_store_boundary None
       (Some 20000000%Z)
     = inl OverflowError.
Proof.
  split; [vm_compute; reflexivity|].
  pose proof (TripEventViewSet_recent_spec 3600001000 demo_store_boundary
                None (Some 24000000000%Z)) as H1.
  pose proof (TripEventViewSet_recent_spec 3600001000 demo_store_boundary
                None (Some 20000000%Z)) as H2.
  cbv zeta in H1, H2.
  destruct (TripEventViewSet_recent 3600001000 demo_store_boundary None
              (Some 24000000000%Z)) as [x|found].
  2:{ destruct H1 as [[Hd _] _]. vm_compute in Hd.
      destruct Hd as [_ Hd]. now destruct Hd. }
  destruct (TripEventViewSet_recent 3600001000 demo_store_boundary None
              (Some 20000000%Z)) as [y|found].
  2:{ destruct H2 as [[_ Hr] _]. vm_compute in Hr.
      destruct Hr as [Hr _]. now destruct Hr. }
  destruct H1 as [-> _]. destruct H2 as [-> _]. split; reflexivity.
Defined.
